(** * CENI-RJ dynamic data layer: CSV parser, local cache, retrying client

    A shallow embedding of the data-acquisition code of the repository:

    - [SheetsCSV.parseCSV] / [SheetsCSV.parseCSVLine], [CacheManager] and
      [SheetsCSV.fetchSheet] of [ceni-repositorio-dinamico.js];
    - [LocalCache] and [CENIApiClient.fetch] of [ceni-dynamic-data.js].

    JavaScript strings are sequences of UTF-16 code units; they are
    modelled as lists of code units ([N]).  Objects built by property
    assignment are modelled as association lists kept in the order in
    which [Object.keys] enumerates them.  The browser ([localStorage],
    [Date.now], the network, timers) is an explicit world that the
    asynchronous functions thread through, together with a trace of the
    requests issued and the delays awaited.  A run is one call chain:
    between its steps nothing else writes to the storage. *)

From Stdlib Require Import ZArith NArith Ascii String.
From stdpp Require Import base list gmap.

Local Open Scope Z_scope.

(** ** Strings *)

Abbreviation char := N.
Abbreviation jsstring := (list N).

(** Literals of the source are written as Rocq strings and converted. *)
Definition str (s : string) : jsstring :=
  List.map N_of_ascii (list_ascii_of_string s).

Arguments str : simpl never.

Definition dquote : char := 34%N.   (* the double quote character *)
Definition comma : char := 44%N.
Definition newline : char := 10%N.

(** [WhiteSpace] and [LineTerminator] code units of ECMAScript, the ones
    that [String.prototype.trim] strips. *)
Definition is_space (c : char) : bool :=
  ((9 <=? c) && (c <=? 13) || (c =? 32) || (c =? 160) || (c =? 5760)
   || (8192 <=? c) && (c <=? 8202)
   || (c =? 8232) || (c =? 8233) || (c =? 8239) || (c =? 8287)
   || (c =? 12288) || (c =? 65279))%N.

Fixpoint trimStart (s : jsstring) : jsstring :=
  match s with
  | c :: rest => if is_space c then trimStart rest else s
  | [] => []
  end.

Definition trimEnd (s : jsstring) : jsstring := rev (trimStart (rev s)).

(** [s.trim()] *)
Definition trim (s : jsstring) : jsstring := trimEnd (trimStart s).

(** [s.split('\n')]: always at least one piece. *)
Fixpoint split_newline (s : jsstring) : list jsstring :=
  match s with
  | [] => [[]]
  | c :: rest =>
      if (c =? newline)%N then [] :: split_newline rest
      else match split_newline rest with
           | piece :: pieces => (c :: piece) :: pieces
           | [] => [[c]]
           end
  end.

(** ** Plain objects with string values

    [obj[key] = value] on an object literal, for a string [value]:
    - the key [__proto__] reaches the accessor of [Object.prototype],
      which ignores a value that is neither an object nor null: no
      property is created;
    - an existing own property keeps its place and gets the new value;
    - a new property whose key is an array index (the canonical decimal
      form of an integer below 2^32 - 1) is enumerated among the
      index keys in ascending numeric order, before all other keys;
    - any other new property is enumerated last. *)

Definition object := list (jsstring * jsstring).

Definition is_digit (c : char) : bool := ((48 <=? c) && (c <=? 57))%N.

Fixpoint digits_value (acc : N) (s : jsstring) : N :=
  match s with
  | [] => acc
  | c :: rest => digits_value (10 * acc + (c - 48))%N rest
  end.

(** [Some n] when [s] is the canonical form of the array index [n]. *)
Definition array_index (s : jsstring) : option N :=
  match s with
  | [] => None
  | c :: rest =>
      if forallb is_digit s
         && (negb (c =? 48)%N || (length rest =? 0)%nat)
         && (length s <=? 10)%nat
         && (digits_value 0 s <=? 4294967294)%N
      then Some (digits_value 0 s)
      else None
  end.

Definition proto_key : jsstring := str "__proto__".

Definition key_eqb (a b : jsstring) : bool := bool_decide (a = b).

Fixpoint has_key (key : jsstring) (o : object) : bool :=
  match o with
  | [] => false
  | (k, _) :: rest => key_eqb k key || has_key key rest
  end.

Fixpoint replace_value (key value : jsstring) (o : object) : object :=
  match o with
  | [] => []
  | (k, v) :: rest =>
      if key_eqb k key then (k, value) :: rest
      else (k, v) :: replace_value key value rest
  end.

(** Place of a new index key [n]: before the first property that is not
    an index key or whose index is larger. *)
Fixpoint insert_index (n : N) (key value : jsstring) (o : object) : object :=
  match o with
  | [] => [(key, value)]
  | (k, v) :: rest =>
      match array_index k with
      | Some m =>
          if (m <? n)%N then (k, v) :: insert_index n key value rest
          else (key, value) :: o
      | None => (key, value) :: o
      end
  end.

Definition obj_set (key value : jsstring) (o : object) : object :=
  if key_eqb key proto_key then o
  else if has_key key o then replace_value key value o
  else match array_index key with
       | Some n => insert_index n key value o
       | None => o ++ [(key, value)]
       end.

(** [Object.keys(o)] *)
Definition keys (o : object) : list jsstring := o.*1.

(** Own property read [o[key]], [None] for a key that is not an own
    property. *)
Fixpoint obj_get (key : jsstring) (o : object) : option jsstring :=
  match o with
  | [] => None
  | (k, v) :: rest => if key_eqb k key then Some v else obj_get key rest
  end.

(** ** JSON values

    What [JSON.parse] and [response.json()] produce.  Numbers are
    restricted to integers: the code only tests them for truthiness. *)

#[local] Set Warnings "-register-all".

Inductive json :=
  | JNull
  | JBool (b : bool)
  | JNumber (n : Z)
  | JString (s : jsstring)
  | JArray (items : list json)
  | JObject (props : list (jsstring * json)).

(** ToBoolean, the test of [if (v)] and [!v]. *)
Definition truthy (v : json) : bool :=
  match v with
  | JNull => false
  | JBool b => b
  | JNumber n => negb (n =? 0)
  | JString s => negb (length s =? 0)%nat
  | JArray _ => true
  | JObject _ => true
  end.

Fixpoint lookup_prop (name : jsstring) (props : list (jsstring * json))
  : option json :=
  match props with
  | [] => None
  | (k, v) :: rest => if key_eqb k name then Some v else lookup_prop name rest
  end.

(** [v.name] for a [v] that is not null; [None] is [undefined].  Neither
    arrays nor primitives have a property of the names read by the code. *)
Definition get_prop (name : jsstring) (v : json) : option json :=
  match v with
  | JObject props => lookup_prop name props
  | _ => None
  end.

(** The array of records of [parseCSV] as a JSON value. *)
Definition record_json (r : object) : json :=
  JObject (List.map (fun kv => (kv.1, JString kv.2)) r).

Definition records_json (rs : list object) : json :=
  JArray (List.map record_json rs).

(** ** The browser

    [localStorage] holds, under the [ceni_] prefix, the items written by
    the two cache modules: [JSON.stringify] of a timestamp and the data,
    read back with [JSON.parse].  The round trip through the serialised
    form is taken to be the identity, so the store maps keys to items.
    A storage that is disabled makes every access throw; a storage that
    is full makes [setItem] throw. *)

Record cache_item := CacheItem {
  timestamp : Z;
  data : json
}.

Record response := Response {
  status : Z;
  statusText : jsstring;
  body_text : option jsstring;  (* response.text(), None when it rejects *)
  body_json : option json       (* response.json(), None when it rejects *)
}.

(** [response.ok] *)
Definition ok (r : response) : bool := (200 <=? status r) && (status r <=? 299).

Inductive reply :=
  | Unreachable (reason : jsstring)   (* the promise of fetch(url) rejects *)
  | Replied (r : response).

(** The environment of a run: the value of the k-th call of [Date.now()],
    the reply to the k-th request, and the state of the storage. *)
Record browser := Browser {
  dates : nat -> Z;
  net : nat -> reply;
  storage_enabled : bool;
  storage_full : bool
}.

Inductive event :=
  | EvRequest (url : jsstring)   (* fetch(url) *)
  | EvDelay (ms : Z).            (* setTimeout(resolve, ms), awaited *)

Record world := World {
  localStorage : gmap jsstring cache_item;
  ticks : nat;        (* calls of Date.now() so far *)
  requests : nat;     (* requests issued so far *)
  trace : list event  (* oldest first *)
}.

Inductive error :=
  | NetworkError (reason : jsstring)     (* rejection of fetch(url) *)
  | HttpError (status : Z) (statusText : jsstring)
      (* new Error(`HTTP ${status}: ${statusText}`) *)
  | ErroHTTP (status : Z) (statusText : jsstring)
      (* new Error(`Erro HTTP: ${status} ${statusText}`) *)
  | BodyError                            (* rejection of json() or text() *)
  | NullPayload                          (* TypeError: data is null *)
  | PayloadError (message : json).       (* new Error(data.error) *)

(** Settlement of the promise returned by an [async] function. *)
Inductive outcome :=
  | Resolved (value : json)
  | Rejected (e : error).

Section Browser.
Variable env : browser.

(** [Date.now()] *)
Definition Date_now (w : world) : Z * world :=
  (dates env (ticks w),
   World (localStorage w) (S (ticks w)) (requests w) (trace w)).

(** [await fetch(url)] *)
Definition http_get (url : jsstring) (w : world) : reply * world :=
  (net env (requests w),
   World (localStorage w) (ticks w) (S (requests w))
         (trace w ++ [EvRequest url])).

(** [await new Promise(resolve => setTimeout(resolve, delay))] *)
Definition sleep (delay : Z) (w : world) : world :=
  World (localStorage w) (ticks w) (requests w) (trace w ++ [EvDelay delay]).

(** [localStorage.getItem(k)] followed by [JSON.parse]; the outer [None]
    is an access that throws. *)
Definition getItem (k : jsstring) (w : world) : option (option cache_item) :=
  if storage_enabled env then Some (localStorage w !! k) else None.

(** [localStorage.setItem(k, JSON.stringify(item))]; [None] when it
    throws. *)
Definition setItem (k : jsstring) (item : cache_item) (w : world)
  : option world :=
  if storage_enabled env && negb (storage_full env)
  then Some (World (<[k := item]> (localStorage w)) (ticks w) (requests w)
                   (trace w))
  else None.

(** [localStorage.removeItem(k)] *)
Definition removeItem (k : jsstring) (w : world) : world :=
  World (delete k (localStorage w)) (ticks w) (requests w) (trace w).
End Browser.

Definition prefix : jsstring := str "ceni_".
Arguments prefix : simpl never.

(** * ceni-dynamic-data.js *)

Module DynamicData.

Record api_config := ApiConfig {
  BASE_URL : jsstring;
  CACHE_DURATION : Z;
  RETRY_ATTEMPTS : Z;
  RETRY_DELAY : Z
}.

Definition API_CONFIG : api_config :=
  ApiConfig
    (str "https://script.google.com/macros/s/AKfycbwK2yrE4LdANPPvzEztemfcrea2nE5B93tESSgmB6E0WKzsHNtPa-XwXAWfdYWMYZw/exec")
    1800000 3 1000.

Section Client.
Variable cfg : api_config.
Variable env : browser.
(** [JSON.stringify(params)] and [URLSearchParams.prototype.toString]
    are left to the caller of the model: no property below depends
    on the text they produce. *)
Variable JSON_stringify : object -> jsstring.
Variable query_toString : list (jsstring * jsstring) -> jsstring.

(** ** LocalCache *)

Definition LocalCache_set (key : jsstring) (d : json) (w : world) : world :=
  let (now, w1) := Date_now env w in
  let cacheData := CacheItem now d in
  match setItem env (prefix ++ key) cacheData w1 with
  | Some w2 => w2
  | None => w1                       (* catch: console.warn *)
  end.

Definition LocalCache_get (key : jsstring) (w : world) : json * world :=
  match getItem env (prefix ++ key) w with
  | None => (JNull, w)               (* catch: console.warn *)
  | Some None => (JNull, w)          (* if (!cached) return null *)
  | Some (Some cacheData) =>
      let (now, w1) := Date_now env w in
      let age := now - timestamp cacheData in
      if age <? CACHE_DURATION cfg then (data cacheData, w1)
      else (JNull, removeItem (prefix ++ key) w1)
  end.

(** ** CENIApiClient.fetch *)

(** [queryParams.set(name, value)]: the first pair of that name gets
    the value and the later ones are removed; without such a pair one
    is appended. *)
Fixpoint query_set (name value : jsstring) (q : list (jsstring * jsstring))
  : list (jsstring * jsstring) :=
  match q with
  | [] => [(name, value)]
  | (k, v) :: rest =>
      if key_eqb k name
      then (k, value) :: List.filter (fun kv => negb (key_eqb kv.1 name)) rest
      else (k, v) :: query_set name value rest
  end.

Definition cacheKey (endpoint : jsstring) (params : object) : jsstring :=
  endpoint ++ str "_" ++ JSON_stringify params.

Definition request_url (endpoint : jsstring) (params : object) : jsstring :=
  BASE_URL cfg ++ str "?"
    ++ query_toString (query_set (str "action") endpoint params).

(** The statements of the [try] block that follow [await fetch(url)],
    up to the payload or to the exception they raise. *)
Definition read_payload (r : reply) : error + json :=
  match r with
  | Unreachable reason => inl (NetworkError reason)
  | Replied resp =>
      if negb (ok resp) then inl (HttpError (status resp) (statusText resp))
      else match body_json resp with
           | None => inl BodyError
           | Some JNull => inl NullPayload
           | Some d =>
               match get_prop (str "error") d with
               | Some e => if truthy e then inl (PayloadError e) else inr d
               | None => inr d
               end
           end
  end.

(** [fetch(endpoint, params, attempt)], with [fuel] bounding the depth
    of the recursive calls.  [Math.pow(2, attempt - 1)] is exact for
    the attempts of a run, which count up from 1. *)
Fixpoint fetch_loop (fuel : nat) (endpoint : jsstring) (params : object)
         (attempt : Z) (w : world) : option (outcome * world) :=
  match fuel with
  | O => None
  | S fuel' =>
      let key := cacheKey endpoint params in
      let (cached, w1) := LocalCache_get key w in
      if truthy cached then Some (Resolved cached, w1)
      else
        let url := request_url endpoint params in
        let (r, w2) := http_get env url w1 in
        match read_payload r with
        | inr d => Some (Resolved d, LocalCache_set key d w2)
        | inl error =>
            if attempt <? RETRY_ATTEMPTS cfg then
              let delay := RETRY_DELAY cfg * 2 ^ (attempt - 1) in
              fetch_loop fuel' endpoint params (attempt + 1)
                         (sleep delay w2)
            else Some (Rejected error, w2)
        end
  end.

Definition fetch (endpoint : jsstring) (params : object) (attempt : Z)
           (w : world) : option (outcome * world) :=
  fetch_loop (S (Z.to_nat (RETRY_ATTEMPTS cfg - attempt)))
             endpoint params attempt w.
End Client.

End DynamicData.

(** * ceni-repositorio-dinamico.js *)

Module RepositorioDinamico.

Record config := Config {
  SHEET_ID : jsstring;
  CACHE_DURATION : Z
}.

Definition CONFIG : config :=
  Config (str "SUA_PLANILHA_ID_AQUI") (5 * 60 * 1000).

(** ** SheetsCSV.parseCSVLine *)

(** The loop variables of [parseCSVLine]. *)
Record line_state := LineState {
  ls_result : list jsstring;
  ls_current : jsstring;
  ls_inQuotes : bool
}.

(** The [for] loop over the characters of the line.  The index [i] is the
    position of the head of the remaining input; [i++] inside the body
    (escaped quote) drops one more character. *)
Fixpoint scan (line : jsstring) (st : line_state) : line_state :=
  match line with
  | [] => st
  | c :: rest =>
      if (c =? dquote)%N then
        match rest with
        | nextChar :: rest' =>
            if ls_inQuotes st && (nextChar =? dquote)%N then
              scan rest' (LineState (ls_result st)
                                    (ls_current st ++ [dquote])
                                    (ls_inQuotes st))
            else
              scan rest (LineState (ls_result st) (ls_current st)
                                   (negb (ls_inQuotes st)))
        | [] =>
            scan rest (LineState (ls_result st) (ls_current st)
                                 (negb (ls_inQuotes st)))
        end
      else if (c =? comma)%N && negb (ls_inQuotes st) then
        scan rest (LineState (ls_result st ++ [trim (ls_current st)])
                             [] (ls_inQuotes st))
      else
        scan rest (LineState (ls_result st) (ls_current st ++ [c])
                             (ls_inQuotes st))
  end.

Definition scan_init : line_state := LineState [] [] false.

Definition parseCSVLine (line : jsstring) : list jsstring :=
  let st := scan line scan_init in
  ls_result st ++ [trim (ls_current st)].

(** ** SheetsCSV.parseCSV *)

(** [csvText.split('\n').filter(line => line.trim().length > 0)] *)
Definition nonempty_lines (csvText : jsstring) : list jsstring :=
  List.filter (fun line => (0 <? length (trim line))%nat)
              (split_newline csvText).

(** [values[index] || '']: an index out of range reads [undefined], and
    both [undefined] and the empty string are falsy. *)
Definition value_or_empty (values : list jsstring) (index : nat) : jsstring :=
  match values !! index with
  | Some (c :: v) => c :: v
  | Some [] => []
  | None => []
  end.

(** The [headers.forEach((header, index) => ...)] loop, from index [index]. *)
Fixpoint fill_record (headers : list jsstring) (index : nat)
         (values : list jsstring) (obj : object) : object :=
  match headers with
  | [] => obj
  | header :: rest =>
      fill_record rest (S index) values
                  (obj_set header (value_or_empty values index) obj)
  end.

Definition make_record (headers : list jsstring) (line : jsstring) : object :=
  fill_record headers 0 (parseCSVLine line) [].

Definition parseCSV (csvText : jsstring) : list object :=
  let lines := nonempty_lines csvText in
  if (length lines <? 2)%nat then []
  else match lines with
       | [] => []
       | header_line :: data_lines =>
           let headers := parseCSVLine header_line in
           List.map (make_record headers) data_lines
       end.

Section Sheets.
Variable cfg : config.
Variable env : browser.

(** ** CacheManager *)

Definition CacheManager_set (key : jsstring) (d : json) (w : world) : world :=
  let (now, w1) := Date_now env w in
  let cacheItem := CacheItem now d in
  match setItem env (prefix ++ key) cacheItem w1 with
  | Some w2 => w2
  | None => w1                       (* catch: console.warn *)
  end.

Definition CacheManager_get (key : jsstring) (w : world) : json * world :=
  match getItem env (prefix ++ key) w with
  | None => (JNull, w)               (* catch: console.warn *)
  | Some None => (JNull, w)          (* if (!cached) return null *)
  | Some (Some cacheItem) =>
      let (now, w1) := Date_now env w in
      let isExpired := now - timestamp cacheItem >? CACHE_DURATION cfg in
      if isExpired then (JNull, removeItem (prefix ++ key) w1)
      else (data cacheItem, w1)
  end.

(** ** SheetsCSV.fetchSheet *)

Definition sheet_url (gid : jsstring) : jsstring :=
  str "https://docs.google.com/spreadsheets/d/" ++ SHEET_ID cfg
    ++ str "/export?format=csv&gid=" ++ gid.

Definition fetchSheet (gid : jsstring) (w : world) : outcome * world :=
  let (cachedData, w1) := CacheManager_get gid w in
  if truthy cachedData then (Resolved cachedData, w1)
  else
    let url := sheet_url gid in
    let (r, w2) := http_get env url w1 in
    match r with
    | Unreachable reason => (Rejected (NetworkError reason), w2)
    | Replied resp =>
        if negb (ok resp)
        then (Rejected (ErroHTTP (status resp) (statusText resp)), w2)
        else match body_text resp with
             | None => (Rejected BodyError, w2)
             | Some csvText =>
                 if (length csvText =? 0)%nat
                    || (length (trim csvText) =? 0)%nat
                 then (Resolved (JArray []), w2)
                 else
                   let parsedData := parseCSV csvText in
                   if (length parsedData =? 0)%nat
                   then (Resolved (JArray []), w2)
                   else (Resolved (records_json parsedData),
                         CacheManager_set gid (records_json parsedData) w2)
             end
    end.
End Sheets.

End RepositorioDinamico.

(** * Further functions of the sources *)

(** [s.startsWith(p)] *)
Fixpoint startsWith (p s : jsstring) : bool :=
  match p, s with
  | [], _ => true
  | a :: p', b :: s' => (a =? b)%N && startsWith p' s'
  | _ :: _, [] => false
  end.

Section Clear.
Variable env : browser.

(** [Object.keys(localStorage)]: the keys of the stored items, in the
    order of the storage; [None] when the access throws. *)
Definition storage_keys (w : world) : option (list jsstring) :=
  if storage_enabled env then Some (map_to_list (localStorage w)).*1
  else None.

(** [LocalCache.clear] of ceni-dynamic-data.js:
    [keys.filter(key => key.startsWith('ceni_')).forEach(removeItem)]. *)
Definition LocalCache_clear (w : world) : world :=
  match storage_keys w with
  | Some ks =>
      foldl (fun w' k => removeItem k w') w (List.filter (startsWith prefix) ks)
  | None => w                            (* catch: console.warn *)
  end.

(** [CacheManager.clear] of ceni-repositorio-dinamico.js:
    [keys.forEach(key => { if (key.startsWith('ceni_')) removeItem(key) })]. *)
Definition CacheManager_clear (w : world) : world :=
  match storage_keys w with
  | Some ks =>
      foldl (fun w' k => if startsWith prefix k then removeItem k w' else w')
            w ks
  | None => w                            (* catch: console.warn *)
  end.
End Clear.

(** ** RepositorioRenderer.groupByCategory (ceni-repositorio-dinamico.js)

    The accumulator of the [reduce] is a plain object whose values are
    arrays of documents.  Reading [acc[categoria]] finds an own property,
    or else a property inherited from [Object.prototype]: the latter is
    truthy and has no [push], so the call raises a TypeError. *)

Definition groups := list (jsstring * list object).

(** The property names of [Object.prototype]. *)
Definition object_prototype_names : list jsstring :=
  [str "constructor"; str "__defineGetter__"; str "__defineSetter__";
   str "hasOwnProperty"; str "__lookupGetter__"; str "__lookupSetter__";
   str "isPrototypeOf"; str "propertyIsEnumerable"; str "toString";
   str "valueOf"; str "__proto__"; str "toLocaleString"].

Definition inherited (name : jsstring) : bool :=
  existsb (key_eqb name) object_prototype_names.

(** [doc.Categoria || 'Outros'] *)
Definition categoria_of (doc : object) : jsstring :=
  match obj_get (str "Categoria") doc with
  | Some (c :: s) => c :: s
  | Some [] => str "Outros"
  | None => str "Outros"
  end.

Fixpoint group_get (name : jsstring) (g : groups) : option (list object) :=
  match g with
  | [] => None
  | (k, docs) :: rest => if key_eqb k name then Some docs else group_get name rest
  end.

(** [acc[name].push(doc)] for an own property [name]. *)
Fixpoint group_push (name : jsstring) (doc : object) (g : groups) : groups :=
  match g with
  | [] => []
  | (k, docs) :: rest =>
      if key_eqb k name then (k, docs ++ [doc]) :: rest
      else (k, docs) :: group_push name doc rest
  end.

(** [acc[name] = []] for a new property, placed as [Object.keys] will
    enumerate it: index keys first, in ascending order. *)
Fixpoint group_insert_index (n : N) (name : jsstring) (g : groups) : groups :=
  match g with
  | [] => [(name, [])]
  | (k, docs) :: rest =>
      match array_index k with
      | Some m =>
          if (m <? n)%N then (k, docs) :: group_insert_index n name rest
          else (name, []) :: g
      | None => (name, []) :: g
      end
  end.

Definition group_create (name : jsstring) (g : groups) : groups :=
  match array_index name with
  | Some n => group_insert_index n name g
  | None => g ++ [(name, [])]
  end.

(** One call of the reducer; [None] is the TypeError. *)
Definition group_step (acc : groups) (doc : object) : option groups :=
  let categoria := categoria_of doc in
  match group_get categoria acc with
  | Some _ => Some (group_push categoria doc acc)
  | None =>
      if inherited categoria then None
      else Some (group_push categoria doc (group_create categoria acc))
  end.

Fixpoint groupByCategory_from (acc : groups) (documentos : list object)
  : option groups :=
  match documentos with
  | [] => Some acc
  | doc :: rest =>
      match group_step acc doc with
      | Some acc' => groupByCategory_from acc' rest
      | None => None
      end
  end.

Definition groupByCategory (documentos : list object) : option groups :=
  groupByCategory_from [] documentos.

(** * The Apps Script variant of the repository module *)

(** [s.split(sep)] for a separator of one character. *)
Fixpoint split_char (sep : char) (s : jsstring) : list jsstring :=
  match s with
  | [] => [[]]
  | c :: rest =>
      if (c =? sep)%N then [] :: split_char sep rest
      else match split_char sep rest with
           | piece :: pieces => (c :: piece) :: pieces
           | [] => [[c]]
           end
  end.

(** Conversion of a parsed JSON value to a string, as a template literal
    does it, raises a TypeError for an object with an own property
    [toString]: no JSON value is callable, and the inherited [valueOf]
    returns the object itself.  Without that property an object converts
    through [Object.prototype.toString]; an array converts by joining its
    elements, null as the empty string; primitives always convert. *)
Fixpoint to_string_throws (v : json) : bool :=
  match v with
  | JObject props =>
      match lookup_prop (str "toString") props with
      | Some _ => true
      | None => false
      end
  | JArray items => existsb to_string_throws items
  | _ => false
  end.

(** Whether [`${v.length}`] raises, for a [v] that is not null: the
    length of an array or a string is a number, a primitive or an object
    without the property reads [undefined], and an own property [length]
    of an object is converted as above. *)
Definition length_text_throws (v : json) : bool :=
  match v with
  | JObject props =>
      match lookup_prop (str "length") props with
      | Some len => to_string_throws len
      | None => false
      end
  | _ => false
  end.

Module AppsScript.

Record config := Config {
  APPS_SCRIPT_URL : jsstring;
  CACHE_KEY : jsstring;
  CACHE_EXPIRATION : Z
}.

Definition placeholder_url : jsstring := str "COLE_AQUI_A_URL_DO_SEU_WEB_APP".

Definition CONFIG : config :=
  Config placeholder_url (str "ceni_repositorio_cache") (5 * 60 * 1000).

Inductive erro :=
  | NaoConfigurada                 (* new Error('URL do Apps Script ...') *)
  | FalhaDeRede (reason : jsstring) (* rejection of fetch(url) *)
  | ErroHTTP (status : Z)          (* new Error(`Erro HTTP: ${status}`) *)
  | CorpoInvalido                  (* rejection of resposta.json() *)
  | ErroDeTipo
      (* TypeError: property of null or undefined, or a value that does
         not convert to a string *)
  | ErroDoServidor (mensagem : option json).
      (* new Error(json.erro || 'Erro desconhecido ao buscar dados'),
         None for the default message *)

Inductive resultado :=
  | Resolvido (dados : json)
  | Rejeitado (e : erro).

Section Modulo.
Variable cfg : config.
Variable env : browser.

(** ** AppsScriptAPI.buscarAba *)

Definition aba_url (nomeAba : jsstring) : jsstring :=
  APPS_SCRIPT_URL cfg ++ str "?aba=" ++ nomeAba.

Definition buscarAba (nomeAba : jsstring) (w : world) : resultado * world :=
  if (length (APPS_SCRIPT_URL cfg) =? 0)%nat
     || key_eqb (APPS_SCRIPT_URL cfg) placeholder_url
  then (Rejeitado NaoConfigurada, w)
  else
    let (r, w1) := http_get env (aba_url nomeAba) w in
    match r with
    | Unreachable reason => (Rejeitado (FalhaDeRede reason), w1)
    | Replied resposta =>
        if negb (ok resposta) then (Rejeitado (ErroHTTP (status resposta)), w1)
        else match body_json resposta with
             | None => (Rejeitado CorpoInvalido, w1)
             | Some JNull => (Rejeitado ErroDeTipo, w1)
             | Some json =>
                 if match get_prop (str "sucesso") json with
                    | Some s => truthy s
                    | None => false
                    end
                 then match get_prop (str "dados") json with
                      | None => (Rejeitado ErroDeTipo, w1)
                      | Some JNull => (Rejeitado ErroDeTipo, w1)
                      | Some dados =>
                          (* console.log(`... ${json.dados.length} itens`) *)
                          if length_text_throws dados
                          then (Rejeitado ErroDeTipo, w1)
                          else (Resolvido dados, w1)
                      end
                 else match get_prop (str "erro") json with
                      | Some e =>
                          if truthy e
                          then if to_string_throws e
                               then (Rejeitado ErroDeTipo, w1)
                               else (Rejeitado (ErroDoServidor (Some e)), w1)
                          else (Rejeitado (ErroDoServidor None), w1)
                      | None => (Rejeitado (ErroDoServidor None), w1)
                      end
             end
    end.

(** ** RepositorioRenderer.formatarData *)

Definition formatarData (d : json) : json :=
  if negb (truthy d) then JString []
  else match d with
       | JString s =>
           match split_char 45%N s with
           | [ano; mes; dia] =>
               JString (dia ++ str "/" ++ mes ++ str "/" ++ ano)
           | _ => d
           end
       | _ => d
       end.

End Modulo.

End AppsScript.

(** * Vocabulary of the statements *)


(** A header that becomes an ordinary property enumerated in creation
    order: neither [__proto__] nor an array index. *)
Definition plain_key (header : jsstring) : bool :=
  negb (key_eqb header proto_key)
  && match array_index header with Some _ => false | None => true end.

(** The columns of a row, paired with the header from position [index]
    on: the field at the position of the header, or the empty string. *)
Fixpoint columns (headers : list jsstring) (index : nat)
         (values : list jsstring) : object :=
  match headers with
  | [] => []
  | header :: rest =>
      (header, default [] (values !! index)) :: columns rest (S index) values
  end.

(** Number of requests in a trace, and the delays awaited, in order. *)
Definition is_request (e : event) : bool :=
  match e with EvRequest _ => true | EvDelay _ => false end.

Definition count_requests (t : list event) : nat :=
  length (List.filter is_request t).

Fixpoint delays (t : list event) : list Z :=
  match t with
  | [] => []
  | EvDelay ms :: rest => ms :: delays rest
  | EvRequest _ :: rest => delays rest
  end.

(** ** Sample inputs *)

(** Two columns, two data lines; the second data line has one field. *)
Definition csv_sample : jsstring :=
  str "Categoria,Link" ++ newline :: str "Atas,http://x" ++ newline
      :: newline :: str "Estudos" ++ [newline].

(** The same header column twice. *)
Definition csv_duplicate_header : jsstring :=
  str "a,a" ++ newline :: str "1,2".

(** A browser with an empty storage, before any request. *)
Definition world0 : world := World ∅ 0 0 [].

(** [JSON.stringify] and [URLSearchParams.prototype.toString] on the
    inputs of the samples: an empty [params], and names and values that
    need no escaping. *)
Definition stringify_sample (o : object) : jsstring := str "{}".

Fixpoint query_sample (q : list (jsstring * jsstring)) : jsstring :=
  match q with
  | [] => []
  | [(k, v)] => k ++ str "=" ++ v
  | (k, v) :: rest => k ++ str "=" ++ v ++ str "&" ++ query_sample rest
  end.

Definition reply_json (d : json) : reply :=
  Replied (Response 200 (str "OK") None (Some d)).

Definition reply_status (s : Z) : reply :=
  Replied (Response s (str "") None None).

Definition envelope : json :=
  JObject [(str "success", JBool true); (str "data", JArray [])].

Definition error_envelope : json :=
  JObject [(str "error", JString (str "Aba inexistente"))].

(** Status 500, then an error payload, then a good payload. *)
Definition env_flaky : browser :=
  Browser (fun _ => 1000)
          (fun k => match k with
                    | O => reply_status 500
                    | S O => reply_json error_envelope
                    | _ => reply_json envelope
                    end)
          true false.

(** Every request answered with status 503. *)
Definition env_down : browser :=
  Browser (fun _ => 1000) (fun _ => reply_status 503) true false.

(** The clock reads 1000, then 1000 + [shift], ever after; every request
    is answered with the payload [d]. *)
Definition env_clock (shift : Z) (d : json) : browser :=
  Browser (fun k => match k with O => 1000 | _ => 1000 + shift end)
          (fun _ => reply_json d) true false.

(** A storage holding one item, written under the cache key [k] when the
    clock was first read. *)
Definition world_with (k : jsstring) (item : cache_item) : world :=
  World {[ prefix ++ k := item ]} 1 0 [].

(** A header column that is an array index, after one that is not; and a
    header column named like the prototype accessor. *)
Definition csv_index_header : jsstring :=
  str "b,1" ++ newline :: str "x,y".

Definition csv_proto_header : jsstring :=
  str "__proto__,b" ++ newline :: str "x,y".

(** ** Vocabulary for the clients *)

(** A store from which a read of the storage key [k] cannot return a
    truthy value: the storage is disabled, the key is absent, or the
    item under it holds a falsy value. *)
Definition cold (env : browser) (k : jsstring) (w : world) : Prop :=
  storage_enabled env = true ->
  forall item, localStorage w !! k = Some item -> truthy (data item) = false.

(** The events of [k] failed attempts that are retried, the first of
    them being attempt number [attempt], with base delay [d]. *)
Fixpoint failed_attempts (url : jsstring) (d : Z) (attempt : Z) (k : nat)
  : list event :=
  match k with
  | O => []
  | S k' =>
      EvRequest url :: EvDelay (d * 2 ^ (attempt - 1))
                :: failed_attempts url d (attempt + 1) k'
  end.



(** ** Vocabulary for further properties *)

(** Occurrences of a character in a string. *)
Definition count_char (c : char) (s : jsstring) : nat :=
  length (List.filter (N.eqb c) s).

(** Sum of the delays awaited in a trace. *)
Definition total_delay (t : list event) : Z := foldr Z.add 0 (delays t).

(** The address of the Apps Script web app has been filled in. *)
Definition url_configurada (cfg : AppsScript.config) : Prop :=
  AppsScript.APPS_SCRIPT_URL cfg <> []
  /\ AppsScript.APPS_SCRIPT_URL cfg <> AppsScript.placeholder_url.

(** The documents of one category, in the order of the list. *)
Definition docs_of (categoria : jsstring) (documentos : list object)
  : list object :=
  List.filter (fun doc => key_eqb (categoria_of doc) categoria) documentos.

(** What the accumulator of [groupByCategory] holds after the documents
    [documentos]: distinct keys, none of them inherited, and under each
    key the documents of that category. *)
Definition grouped (documentos : list object) (g : groups) : Prop :=
  NoDup g.*1
  /\ Forall (fun k => inherited k = false) g.*1
  /\ forall c, group_get c g
               = match docs_of c documentos with
                 | [] => None
                 | doc :: docs => Some (doc :: docs)
                 end.

(** ** Further sample inputs *)

(** A page that may not use the storage. *)
Definition env_no_storage : browser :=
  Browser (fun _ => 1000) (fun _ => reply_json envelope) false false.

(** Every request answered with the CSV text [text]; the clock reads
    1000, then 1000 + [shift]. *)
Definition env_csv (shift : Z) (text : jsstring) : browser :=
  Browser (fun k => match k with O => 1000 | _ => 1000 + shift end)
          (fun _ => Replied (Response 200 (str "OK") (Some text) None))
          true false.



(** * Properties of the CSV parser *)

Section ParserFacts.
Import RepositorioDinamico.

(** Induction over a line the way [scan] consumes it: one character, or
    two for an escaped quote. *)
Lemma line_ind2 (P : jsstring -> Prop) :
  P [] ->
  (forall c rest, P rest -> (forall c' rest', rest = c' :: rest' -> P rest') ->
                  P (c :: rest)) ->
  forall line, P line.
Proof.
  intros Hnil Hcons line.
  assert (H : P line /\ (forall c' rest', line = c' :: rest' -> P rest')).
  { induction line as [|c rest [IH1 IH2]].
    - split; [exact Hnil | intros ? ? [=]].
    - split; [apply Hcons; assumption | intros c' rest' [= -> ->]; exact IH1]. }
  exact (proj1 H).
Qed.

(** One step of the loop, case by case. *)
Lemma scan_escaped_quote rest res cur :
  scan (dquote :: dquote :: rest) (LineState res cur true)
  = scan rest (LineState res (cur ++ [dquote]) true).
Proof. reflexivity. Qed.

Lemma scan_open_quote rest res cur :
  scan (dquote :: rest) (LineState res cur false)
  = scan rest (LineState res cur true).
Proof. destruct rest; reflexivity. Qed.

Lemma scan_close_quote c rest res cur :
  c <> dquote ->
  scan (dquote :: c :: rest) (LineState res cur true)
  = scan (c :: rest) (LineState res cur false).
Proof.
  intros Hc. cbn [scan ls_inQuotes ls_result ls_current andb].
  rewrite N.eqb_refl.
  destruct (N.eqb_spec c dquote) as [->|_]; [contradiction | reflexivity].
Qed.

Lemma scan_close_quote_end res cur :
  scan [dquote] (LineState res cur true) = LineState res cur false.
Proof. reflexivity. Qed.

Lemma scan_comma_inside rest res cur :
  scan (comma :: rest) (LineState res cur true)
  = scan rest (LineState res (cur ++ [comma]) true).
Proof. reflexivity. Qed.

Lemma scan_comma_outside rest res cur :
  scan (comma :: rest) (LineState res cur false)
  = scan rest (LineState (res ++ [trim cur]) [] false).
Proof. reflexivity. Qed.

Lemma scan_other c rest res cur q :
  c <> dquote -> (c <> comma \/ q = true) ->
  scan (c :: rest) (LineState res cur q)
  = scan rest (LineState res (cur ++ [c]) q).
Proof.
  intros Hq Hc. cbn [scan ls_inQuotes ls_result ls_current].
  destruct (N.eqb_spec c dquote) as [->|_]; [contradiction|].
  destruct (N.eqb_spec c comma) as [->|_]; [|reflexivity].
  destruct Hc as [Hc| ->]; [contradiction | reflexivity].
Qed.

(** Characters without a quote are scanned one at a time, whatever
    follows them. *)
Lemma scan_app_no_quote s t st :
  dquote ∉ s -> scan (s ++ t) st = scan t (scan s st).
Proof.
  revert st. induction s as [|c s IH]; intros st Hs; [reflexivity|].
  apply not_elem_of_cons in Hs as [Hc Hs].
  destruct st as [res cur q].
  cbn [app scan ls_inQuotes ls_result ls_current].
  destruct (N.eqb_spec c dquote) as [->|_]; [contradiction|].
  destruct ((c =? comma)%N && negb q); apply IH; assumption.
Qed.

Lemma scan_inside_quotes s res cur :
  dquote ∉ s ->
  scan s (LineState res cur true) = LineState res (cur ++ s) true.
Proof.
  revert cur. induction s as [|c s IH]; intros cur Hs.
  - cbn. by rewrite app_nil_r.
  - apply not_elem_of_cons in Hs as [Hc Hs].
    rewrite scan_other by (auto; congruence).
    rewrite IH by assumption. by rewrite <- app_assoc.
Qed.

Lemma scan_plain s res cur :
  dquote ∉ s -> comma ∉ s ->
  scan s (LineState res cur false) = LineState res (cur ++ s) false.
Proof.
  revert cur. induction s as [|c s IH]; intros cur Hs Hc.
  - cbn. by rewrite app_nil_r.
  - apply not_elem_of_cons in Hs as [Hc1 Hs].
    apply not_elem_of_cons in Hc as [Hc2 Hc].
    rewrite scan_other by (auto; congruence).
    rewrite IH by assumption. by rewrite <- app_assoc.
Qed.

(** The fields already emitted are a prefix of the final result. *)
Lemma scan_result_prefix line : forall res cur q,
  scan line (LineState res cur q)
  = LineState (res ++ ls_result (scan line (LineState [] cur q)))
              (ls_current (scan line (LineState [] cur q)))
              (ls_inQuotes (scan line (LineState [] cur q))).
Proof.
  induction line as [|c rest IH1 IH2] using line_ind2; intros res cur q.
  - cbn. by rewrite app_nil_r.
  - cbn [scan ls_inQuotes ls_result ls_current].
    destruct (c =? dquote)%N.
    + destruct rest as [|c' rest'].
      * cbn. by rewrite app_nil_r.
      * destruct (q && (c' =? dquote)%N).
        -- apply (IH2 c' rest' eq_refl).
        -- apply IH1.
    + destruct ((c =? comma)%N && negb q).
      * rewrite (IH1 (res ++ [trim cur])), (IH1 ([] ++ [trim cur])).
        cbn. by rewrite <- app_assoc.
      * apply IH1.
Qed.

Lemma parseCSVLine_comma s t :
  dquote ∉ s -> comma ∉ s ->
  parseCSVLine (s ++ comma :: t) = trim s :: parseCSVLine t.
Proof.
  intros Hq Hc. unfold parseCSVLine, scan_init.
  rewrite scan_app_no_quote by assumption.
  rewrite scan_plain by assumption.
  rewrite scan_comma_outside. cbn [app].
  rewrite scan_result_prefix. reflexivity.
Qed.

Lemma parseCSVLine_quoted s :
  dquote ∉ s -> parseCSVLine (dquote :: s ++ [dquote]) = [trim s].
Proof.
  intros Hq. unfold parseCSVLine, scan_init.
  rewrite scan_open_quote, scan_app_no_quote by assumption.
  rewrite scan_inside_quotes by assumption. reflexivity.
Qed.


Lemma parseCSVLine_doubled s t :
  dquote ∉ s -> dquote ∉ t ->
  parseCSVLine (dquote :: s ++ dquote :: dquote :: t ++ [dquote])
  = [trim (s ++ dquote :: t)].
Proof.
  intros Hs Ht. unfold parseCSVLine, scan_init.
  rewrite scan_open_quote, scan_app_no_quote by assumption.
  rewrite scan_inside_quotes by assumption.
  rewrite scan_escaped_quote, scan_app_no_quote by assumption.
  rewrite scan_inside_quotes by assumption. cbn.
  by rewrite <- app_assoc.
Qed.

End ParserFacts.

(** ** Trimming *)

Lemma trimStart_head s c :
  head (trimStart s) = Some c -> is_space c = false.
Proof.
  induction s as [|d s IH]; cbn; [discriminate|].
  destruct (is_space d) eqn:Hd; [exact IH|].
  cbn. intros [= <-]. exact Hd.
Qed.

Lemma trimStart_snoc s c :
  is_space c = false -> trimStart (s ++ [c]) = trimStart s ++ [c].
Proof.
  intros Hc. induction s as [|d s IH]; cbn.
  - by rewrite Hc.
  - destruct (is_space d); [exact IH | reflexivity].
Qed.



Section LineFacts.
Import RepositorioDinamico.


(** C6: a comma met inside quotes is appended to the current field, a
    comma met outside quotes ends the field, which is emitted trimmed.
    Hence a quoted field keeps its commas: a line made of one quoted text
    [s] is the single field [trim s], while an unquoted text [s] followed
    by a comma is a field of its own.  In particular the quoted field
    a,b is the one value a,b. *)
Theorem comma_inside_quotes_is_literal :
  (forall rest res cur,
      scan (comma :: rest) (LineState res cur true)
      = scan rest (LineState res (cur ++ [comma]) true))
  /\ (forall rest res cur,
      scan (comma :: rest) (LineState res cur false)
      = scan rest (LineState (res ++ [trim cur]) [] false))
  /\ (forall s, dquote ∉ s -> parseCSVLine (dquote :: s ++ [dquote]) = [trim s])
  /\ (forall s t, dquote ∉ s -> comma ∉ s ->
                  parseCSVLine (s ++ comma :: t) = trim s :: parseCSVLine t)
  /\ parseCSVLine (dquote :: str "a,b" ++ [dquote]) = [str "a,b"]
  /\ parseCSVLine (str "a,b") = [str "a"; str "b"].
Proof.
  split; [exact scan_comma_inside|].
  split; [exact scan_comma_outside|].
  split; [exact parseCSVLine_quoted|].
  split; [exact parseCSVLine_comma|].
  split; reflexivity.
Qed.

(** C7: outside quotes a quote character opens a quoted section; inside
    quotes a quote followed by another quote appends one literal quote
    and consumes both, and a quote followed by anything else (or by the
    end of the line) closes the section.  In particular the quoted field
    a, quote, quote, b is the value a, quote, b. *)
Theorem doubled_quote_is_literal :
  (forall rest res cur,
      scan (dquote :: dquote :: rest) (LineState res cur true)
      = scan rest (LineState res (cur ++ [dquote]) true))
  /\ (forall rest res cur,
      scan (dquote :: rest) (LineState res cur false)
      = scan rest (LineState res cur true))
  /\ (forall c rest res cur, c <> dquote ->
      scan (dquote :: c :: rest) (LineState res cur true)
      = scan (c :: rest) (LineState res cur false))
  /\ (forall res cur,
      scan [dquote] (LineState res cur true) = LineState res cur false)
  /\ (forall s t, dquote ∉ s -> dquote ∉ t ->
      parseCSVLine (dquote :: s ++ dquote :: dquote :: t ++ [dquote])
      = [trim (s ++ dquote :: t)])
  /\ parseCSVLine (dquote :: str "a" ++ dquote :: dquote :: str "b" ++ [dquote])
     = [str "a" ++ dquote :: str "b"].
Proof.
  split; [exact scan_escaped_quote|].
  split; [exact scan_open_quote|].
  split; [exact scan_close_quote|].
  split; [exact scan_close_quote_end|].
  split; [exact parseCSVLine_doubled|].
  reflexivity.
Qed.


End LineFacts.

(** ** Lines and records *)

Section RecordFacts.
Import RepositorioDinamico.

Lemma split_newline_single s : newline ∉ s -> split_newline s = [s].
Proof.
  induction s as [|c s IH]; intros Hs; [reflexivity|].
  apply not_elem_of_cons in Hs as [Hc Hs]. cbn.
  destruct (N.eqb_spec c newline) as [->|_]; [contradiction|].
  by rewrite IH.
Qed.


Lemma parseCSV_rows csvText header_line data_line data_lines :
  nonempty_lines csvText = header_line :: data_line :: data_lines ->
  parseCSV csvText
  = List.map (make_record (parseCSVLine header_line)) (data_line :: data_lines).
Proof. intros H. unfold parseCSV. rewrite H. reflexivity. Qed.

Lemma value_or_empty_default values index :
  value_or_empty values index = default [] (values !! index).
Proof. unfold value_or_empty. by destruct (values !! index) as [[|]|]. Qed.

Lemma has_key_false_iff key (o : object) :
  has_key key o = false <-> key ∉ keys o.
Proof.
  unfold keys. induction o as [|[k v] o IH]; cbn.
  - split; [intros _; apply not_elem_of_nil | reflexivity].
  - unfold key_eqb at 1.
    rewrite orb_false_iff, IH, not_elem_of_cons, bool_decide_eq_false.
    intuition congruence.
Qed.

Lemma obj_set_plain key value (o : object) :
  plain_key key = true -> key ∉ keys o ->
  obj_set key value o = o ++ [(key, value)].
Proof.
  unfold plain_key, obj_set. intros Hp Hk.
  apply andb_true_iff in Hp as [Hp1 Hp2].
  apply negb_true_iff in Hp1. rewrite Hp1.
  apply has_key_false_iff in Hk. rewrite Hk.
  by destruct (array_index key).
Qed.

Lemma keys_columns headers index values :
  keys (columns headers index values) = headers.
Proof.
  revert index. induction headers as [|h rest IH]; intros index; cbn; [done|].
  unfold keys in IH. by rewrite IH.
Qed.

Lemma fill_record_plain headers : forall index values (obj : object),
  NoDup headers -> Forall (fun h => plain_key h = true) headers ->
  (forall h, h ∈ headers -> h ∉ keys obj) ->
  fill_record headers index values obj = obj ++ columns headers index values.
Proof.
  induction headers as [|h rest IH]; intros index values obj Hnd Hp Hfresh.
  - cbn. by rewrite app_nil_r.
  - apply NoDup_cons in Hnd as [Hh Hnd].
    apply Forall_cons in Hp as [Hph Hp].
    cbn [fill_record columns].
    rewrite obj_set_plain, value_or_empty_default;
      [|exact Hph|apply Hfresh; left].
    rewrite IH; [by rewrite <- app_assoc|exact Hnd|exact Hp|].
    intros h' Hh'. unfold keys. rewrite fmap_app, not_elem_of_app. split.
    + apply Hfresh. by right.
    + cbn. rewrite list_elem_of_singleton. intros ->. contradiction.
Qed.

Lemma obj_get_columns headers : forall index values i header,
  NoDup headers -> headers !! i = Some header ->
  obj_get header (columns headers index values)
  = Some (default [] (values !! (index + i)%nat)).
Proof.
  induction headers as [|h rest IH]; intros index values i header Hnd Hi.
  - discriminate.
  - apply NoDup_cons in Hnd as [Hh Hnd]. cbn [columns obj_get]. unfold key_eqb.
    destruct i as [|i]; cbn in Hi.
    + injection Hi as ->. rewrite bool_decide_eq_true_2 by reflexivity.
      by rewrite Nat.add_0_r.
    + rewrite bool_decide_eq_false_2.
      * rewrite (IH (S index) values i header Hnd Hi).
        by replace (S index + i)%nat with (index + S i)%nat by lia.
      * intros ->. apply Hh. eapply list_elem_of_lookup_2. exact Hi.
Qed.


(** C1, as the code has it: with a header line and at least one data
    line among the non-empty lines, there is one record per data line;
    when the header columns are pairwise distinct and none of them is
    [__proto__] or an array index, the keys of each record are the
    header columns in header order, and the value under the column at
    index i is the i-th field of the data line, or the empty string when
    the line has no such field. *)
Theorem parseCSV_records (csvText header_line : jsstring)
        (data_line : jsstring) (data_lines : list jsstring) :
  nonempty_lines csvText = header_line :: data_line :: data_lines ->
  NoDup (parseCSVLine header_line) ->
  Forall (fun h => plain_key h = true) (parseCSVLine header_line) ->
  length (parseCSV csvText) = length (data_line :: data_lines)
  /\ forall j line,
      (data_line :: data_lines) !! j = Some line ->
      exists r,
        parseCSV csvText !! j = Some r
        /\ keys r = parseCSVLine header_line
        /\ forall i header,
            parseCSVLine header_line !! i = Some header ->
            obj_get header r = Some (default [] (parseCSVLine line !! i)).
Proof.
  intros Hlines Hnd Hplain.
  rewrite (parseCSV_rows _ _ _ _ Hlines).
  split; [apply length_map|].
  intros j line Hj.
  exists (make_record (parseCSVLine header_line) line).
  split.
  { change (List.map ?f ?l) with (f <$> l).
    rewrite list_lookup_fmap, Hj. reflexivity. }
  unfold make_record.
  rewrite fill_record_plain by
      (try assumption; intros; apply not_elem_of_nil).
  cbn [app]. split; [apply keys_columns|].
  intros i header Hi.
  by rewrite (obj_get_columns _ 0%nat _ i header Hnd Hi).
Qed.

(** One record per data line holds without any condition on the header. *)
Lemma parseCSV_length csvText header_line data_line data_lines :
  nonempty_lines csvText = header_line :: data_line :: data_lines ->
  length (parseCSV csvText) = S (length data_lines).
Proof.
  intros H. rewrite (parseCSV_rows _ _ _ _ H). by rewrite length_map.
Qed.

End RecordFacts.

(** ** The parser on sample inputs *)

Section ParserSamples.
Import RepositorioDinamico.

Lemma comma_inside_quotes_witness :
  parseCSVLine (dquote :: str "x, y,z" ++ [dquote]) = [trim (str "x, y,z")]
  /\ parseCSVLine (str "x " ++ comma :: str "y,z")
     = trim (str "x ") :: parseCSVLine (str "y,z").
Proof.
  split.
  - apply (proj1 (proj2 (proj2 comma_inside_quotes_is_literal))). compute_done.
  - apply (proj1 (proj2 (proj2 (proj2 comma_inside_quotes_is_literal))));
      compute_done.
Defined.

Lemma doubled_quote_witness :
  parseCSVLine (dquote :: str "say " ++ dquote :: dquote :: str "hi" ++ [dquote])
  = [trim (str "say " ++ dquote :: str "hi")].
Proof.
  apply (proj1 (proj2 (proj2 (proj2 (proj2 doubled_quote_is_literal)))));
    compute_done.
Defined.



Lemma parseCSV_records_witness :
  length (parseCSV csv_sample) = 2%nat
  /\ forall j line,
      [str "Atas,http://x"; str "Estudos"] !! j = Some line ->
      exists r,
        parseCSV csv_sample !! j = Some r
        /\ keys r = parseCSVLine (str "Categoria,Link")
        /\ forall i header,
            parseCSVLine (str "Categoria,Link") !! i = Some header ->
            obj_get header r = Some (default [] (parseCSVLine line !! i)).
Proof.
  apply (parseCSV_records csv_sample (str "Categoria,Link")
                          (str "Atas,http://x") [str "Estudos"]).
  - vm_compute. reflexivity.
  - compute_done.
  - compute_done.
Defined.

(** With the header a,a the single record of the row 1,2 has one key,
    and the value under the first column is the second field: the keys
    are not the header columns, and the value under the column at index
    0 is not the field at index 0. *)
Lemma parseCSV_duplicate_header :
  nonempty_lines csv_duplicate_header = [str "a,a"; str "1,2"]
  /\ parseCSVLine (str "a,a") = [str "a"; str "a"]
  /\ parseCSVLine (str "1,2") = [str "1"; str "2"]
  /\ parseCSV csv_duplicate_header = [[(str "a", str "2")]]
  /\ ~ (forall r, r ∈ parseCSV csv_duplicate_header ->
                  keys r = parseCSVLine (str "a,a")
                  /\ obj_get (str "a") r
                     = Some (default [] (parseCSVLine (str "1,2") !! 0%nat))).
Proof.
  split; [vm_compute; reflexivity|].
  split; [vm_compute; reflexivity|].
  split; [vm_compute; reflexivity|].
  split; [vm_compute; reflexivity|].
  intros H.
  destruct (H [(str "a", str "2")]) as [Hk _].
  - vm_compute. left.
  - vm_compute in Hk. discriminate Hk.
Qed.

(** The two other ways in which the keys of a record differ from the
    header: an array index is enumerated first, and [__proto__] creates
    no property. *)
Example parseCSV_index_header_first :
  parseCSVLine (str "b,1") = [str "b"; str "1"]
  /\ List.map keys (parseCSV csv_index_header) = [[str "1"; str "b"]].
Proof. split; vm_compute; reflexivity. Qed.

Example parseCSV_proto_header_dropped :
  parseCSVLine (str "__proto__,b") = [str "__proto__"; str "b"]
  /\ List.map keys (parseCSV csv_proto_header) = [[str "b"]].
Proof. split; vm_compute; reflexivity. Qed.

End ParserSamples.

(** * Properties of the JSON client *)

Section ClientFacts.
Import DynamicData.

Variable cfg : api_config.
Variable env : browser.
Variable JSON_stringify : object -> jsstring.
Variable query_toString : list (jsstring * jsstring) -> jsstring.
Variable endpoint : jsstring.
Variable params : object.

Local Abbreviation key := (cacheKey JSON_stringify endpoint params).
Local Abbreviation url := (request_url cfg query_toString endpoint params).
Local Abbreviation get := (LocalCache_get cfg env).
Local Abbreviation put := (LocalCache_set env).
Local Abbreviation floop :=
  (fetch_loop cfg env JSON_stringify query_toString).

(** ** Cache reads *)

Lemma LocalCache_get_events k w :
  trace (get k w).2 = trace w /\ requests (get k w).2 = requests w.
Proof.
  unfold LocalCache_get, getItem.
  destruct (storage_enabled env); [|done].
  destruct (localStorage w !! (prefix ++ k)) as [item|]; [|done].
  cbn. by destruct (_ <? _).
Qed.

Lemma LocalCache_get_miss_cold k w :
  truthy (get k w).1 = false -> cold env (prefix ++ k) (get k w).2.
Proof.
  unfold LocalCache_get, getItem, cold.
  destruct (storage_enabled env); [|done].
  destruct (localStorage w !! (prefix ++ k)) as [item|] eqn:Hk.
  - cbn. destruct (_ <? _); cbn.
    + intros Hv _ item' Hitem'. congruence.
    + intros _ _ item'. by rewrite lookup_delete_eq.
  - cbn. intros _ _ item'. by rewrite Hk.
Qed.

Lemma cold_LocalCache_get k w :
  cold env (prefix ++ k) w ->
  truthy (get k w).1 = false /\ cold env (prefix ++ k) (get k w).2.
Proof.
  intros Hcold. unfold LocalCache_get, getItem, cold in *.
  destruct (storage_enabled env); [|done].
  destruct (localStorage w !! (prefix ++ k)) as [item|] eqn:Hk.
  - cbn. destruct (_ <? _); cbn.
    + split; [by apply Hcold|]. intros _ item'. rewrite Hk.
      intros [= <-]. by apply Hcold.
    + split; [done|]. intros _ item'. by rewrite lookup_delete_eq.
  - cbn. split; [done|]. intros _ item'. by rewrite Hk.
Qed.

(** ** One activation of [fetch] *)

Lemma fetch_loop_hit fuel attempt w :
  truthy (get key w).1 = true ->
  floop (S fuel) endpoint params attempt w
  = Some (Resolved (get key w).1, (get key w).2).
Proof.
  intros Hhit. cbn [fetch_loop].
  destruct (get key w) as [cached w1]. cbn in Hhit. by rewrite Hhit.
Qed.

Lemma fetch_loop_success fuel attempt w d :
  truthy (get key w).1 = false ->
  read_payload (net env (requests w)) = inr d ->
  floop (S fuel) endpoint params attempt w
  = Some (Resolved d, put key d (http_get env url (get key w).2).2).
Proof.
  intros Hmiss Hd. cbn [fetch_loop].
  pose proof (LocalCache_get_events key w) as [_ Hreq].
  destruct (get key w) as [cached w1]. cbn in Hmiss, Hreq |- *.
  by rewrite Hmiss, Hreq, Hd.
Qed.

Lemma fetch_loop_retry fuel attempt w e :
  truthy (get key w).1 = false ->
  read_payload (net env (requests w)) = inl e ->
  attempt < RETRY_ATTEMPTS cfg ->
  floop (S fuel) endpoint params attempt w
  = floop fuel endpoint params (attempt + 1)
          (sleep (RETRY_DELAY cfg * 2 ^ (attempt - 1))
                 (http_get env url (get key w).2).2).
Proof.
  intros Hmiss He Hlt. cbn [fetch_loop].
  pose proof (LocalCache_get_events key w) as [_ Hreq].
  destruct (get key w) as [cached w1]. cbn in Hmiss, Hreq |- *.
  apply Z.ltb_lt in Hlt. by rewrite Hmiss, Hreq, He, Hlt.
Qed.

Lemma fetch_loop_give_up fuel attempt w e :
  truthy (get key w).1 = false ->
  read_payload (net env (requests w)) = inl e ->
  RETRY_ATTEMPTS cfg <= attempt ->
  floop (S fuel) endpoint params attempt w
  = Some (Rejected e, (http_get env url (get key w).2).2).
Proof.
  intros Hmiss He Hge. cbn [fetch_loop].
  pose proof (LocalCache_get_events key w) as [_ Hreq].
  destruct (get key w) as [cached w1]. cbn in Hmiss, Hreq |- *.
  apply Z.ltb_ge in Hge. by rewrite Hmiss, Hreq, He, Hge.
Qed.

(** ** Failed attempts that are retried *)

Lemma cold_misses w :
  cold env (prefix ++ key) w -> truthy (get key w).1 = false.
Proof. intros H. apply cold_LocalCache_get, H. Qed.

(** After a miss, the retry starts from a world that misses again. *)
Lemma misses_after_retry w delay :
  truthy (get key w).1 = false ->
  truthy (get key (sleep delay (http_get env url (get key w).2).2)).1 = false.
Proof.
  intros Hmiss. apply cold_misses.
  exact (LocalCache_get_miss_cold key w Hmiss).
Qed.

Lemma fetch_loop_failures k : forall fuel attempt w,
  truthy (get key w).1 = false ->
  (forall i, (i < k)%nat ->
             attempt + Z.of_nat i < RETRY_ATTEMPTS cfg
             /\ exists e, read_payload (net env (requests w + i)) = inl e) ->
  exists wk,
    floop (k + fuel) endpoint params attempt w
    = floop fuel endpoint params (attempt + Z.of_nat k) wk
    /\ truthy (get key wk).1 = false
    /\ trace wk = trace w ++ failed_attempts url (RETRY_DELAY cfg) attempt k
    /\ requests wk = (requests w + k)%nat.
Proof.
  induction k as [|k IH]; intros fuel attempt w Hmiss Hfail.
  - exists w. rewrite Z.add_0_r, app_nil_r, Nat.add_0_r. done.
  - destruct (Hfail 0%nat ltac:(lia)) as [Hlt [e He]].
    rewrite Z.add_0_r in Hlt. rewrite Nat.add_0_r in He.
    pose proof (LocalCache_get_events key w) as [Htr Hreq].
    cbn [Nat.add]. rewrite (fetch_loop_retry _ _ _ e Hmiss He Hlt).
    pose proof (misses_after_retry w (RETRY_DELAY cfg * 2 ^ (attempt - 1)) Hmiss)
      as Hmiss'.
    set (w' := sleep _ _) in *.
    assert (Htr' : trace w' = trace w ++ [EvRequest url;
                      EvDelay (RETRY_DELAY cfg * 2 ^ (attempt - 1))]).
    { subst w'. cbn. rewrite Htr, <- app_assoc. reflexivity. }
    assert (Hreq' : requests w' = S (requests w)).
    { subst w'. cbn. by rewrite Hreq. }
    destruct (IH fuel (attempt + 1) w' Hmiss') as (wk & Hrun & Hmissk & Htrk & Hreqk).
    + intros i Hi. destruct (Hfail (S i) ltac:(lia)) as [Hlt' [e' He']].
      split; [lia|]. exists e'.
      replace (requests w' + i)%nat with (requests w + S i)%nat by lia.
      exact He'.
    + exists wk. split; [|split; [exact Hmissk|split]].
      * rewrite Hrun. f_equal. lia.
      * rewrite Htrk, Htr', <- app_assoc. reflexivity.
      * lia.
Qed.

Lemma LocalCache_set_events k d w :
  trace (put k d w) = trace w /\ requests (put k d w) = requests w.
Proof.
  unfold LocalCache_set, setItem. cbn.
  by destruct (storage_enabled env && negb (storage_full env)).
Qed.

(** [k] failed attempts, then a success. *)
Lemma fetch_loop_failures_then_success k fuel w d :
  truthy (get key w).1 = false ->
  (forall i, (i < k)%nat ->
             1 + Z.of_nat i < RETRY_ATTEMPTS cfg
             /\ exists e, read_payload (net env (requests w + i)) = inl e) ->
  read_payload (net env (requests w + k)) = inr d ->
  exists w',
    floop (k + S fuel) endpoint params 1 w = Some (Resolved d, w')
    /\ trace w' = trace w ++ failed_attempts url (RETRY_DELAY cfg) 1 k
                          ++ [EvRequest url].
Proof.
  intros Hmiss Hfail Hd.
  destruct (fetch_loop_failures k (S fuel) 1 w Hmiss Hfail)
    as (wk & Hrun & Hmissk & Htrk & Hreqk).
  rewrite <- Hreqk in Hd.
  eexists. split.
  - rewrite Hrun. apply fetch_loop_success; eassumption.
  - pose proof (LocalCache_get_events key wk) as [Htr _].
    rewrite (proj1 (LocalCache_set_events _ _ _)). cbn.
    rewrite Htr, Htrk, <- app_assoc. reflexivity.
Qed.

(** Every attempt fails: [Z.max 1 (RETRY_ATTEMPTS cfg)] requests are
    made, and the error of the last one is the rejection. *)
Lemma fetch_all_attempts_fail w :
  truthy (get key w).1 = false ->
  (forall i, Z.of_nat i < Z.max 1 (RETRY_ATTEMPTS cfg) ->
             exists e, read_payload (net env (requests w + i)) = inl e) ->
  exists e w',
    fetch cfg env JSON_stringify query_toString endpoint params 1 w
    = Some (Rejected e, w')
    /\ read_payload
         (net env (requests w + Z.to_nat (Z.max 1 (RETRY_ATTEMPTS cfg) - 1)))
       = inl e
    /\ trace w'
       = trace w
           ++ failed_attempts url (RETRY_DELAY cfg) 1
                (Z.to_nat (Z.max 1 (RETRY_ATTEMPTS cfg) - 1))
           ++ [EvRequest url].
Proof.
  intros Hmiss Hfail. unfold fetch.
  set (k := Z.to_nat (Z.max 1 (RETRY_ATTEMPTS cfg) - 1)).
  replace (S (Z.to_nat (RETRY_ATTEMPTS cfg - 1))) with (k + 1)%nat by lia.
  destruct (fetch_loop_failures k 1%nat 1 w Hmiss)
    as (wk & Hrun & Hmissk & Htrk & Hreqk).
  { intros i Hi. split; [lia|]. apply Hfail. lia. }
  destruct (Hfail k ltac:(lia)) as [e He].
  exists e. eexists. split; [|split].
  - rewrite Hrun. apply fetch_loop_give_up; [exact Hmissk| |lia].
    rewrite Hreqk. exact He.
  - exact He.
  - pose proof (LocalCache_get_events key wk) as [Htr _].
    cbn. rewrite Htr, Htrk, <- app_assoc. reflexivity.
Qed.

(** [fetch] settles, and after a miss its first event is a request. *)
Lemma fetch_loop_miss_requests fuel : forall attempt w,
  (Z.to_nat (RETRY_ATTEMPTS cfg - attempt) < fuel)%nat ->
  truthy (get key w).1 = false ->
  exists out w' rest,
    floop fuel endpoint params attempt w = Some (out, w')
    /\ trace w' = trace w ++ EvRequest url :: rest.
Proof.
  induction fuel as [|fuel IH]; intros attempt w Hfuel Hmiss; [lia|].
  pose proof (LocalCache_get_events key w) as [Htr Hreq].
  destruct (read_payload (net env (requests w))) as [e|d] eqn:Hr.
  - destruct (Z.lt_ge_cases attempt (RETRY_ATTEMPTS cfg)) as [Hlt|Hge].
    + rewrite (fetch_loop_retry _ _ _ e Hmiss Hr Hlt).
      pose proof (misses_after_retry w (RETRY_DELAY cfg * 2 ^ (attempt - 1)) Hmiss)
        as Hmiss'.
      destruct (IH (attempt + 1) _ ltac:(lia) Hmiss') as (out & w' & rest & Hrun & Htr').
      exists out, w'. eexists. split; [exact Hrun|].
      rewrite Htr'. cbn. rewrite Htr, <- !app_assoc. reflexivity.
    + rewrite (fetch_loop_give_up _ _ _ e Hmiss Hr Hge).
      eexists _, _, []. split; [reflexivity|]. cbn. by rewrite Htr.
  - rewrite (fetch_loop_success _ _ _ d Hmiss Hr).
    eexists _, _, []. split; [reflexivity|].
    rewrite (proj1 (LocalCache_set_events _ _ _)). cbn. by rewrite Htr.
Qed.

Lemma fetch_settles attempt w :
  exists out w',
    fetch cfg env JSON_stringify query_toString endpoint params attempt w
    = Some (out, w').
Proof.
  unfold fetch. destruct (truthy (get key w).1) eqn:Hc.
  - rewrite (fetch_loop_hit _ _ _ Hc). eauto.
  - destruct (fetch_loop_miss_requests _ attempt w (Nat.lt_succ_diag_r _) Hc)
      as (out & w' & _ & H & _). eauto.
Qed.

Lemma count_requests_failed_attempts u d attempt k :
  count_requests (failed_attempts u d attempt k ++ [EvRequest u]) = S k.
Proof.
  unfold count_requests. revert attempt.
  induction k as [|k IH]; intros attempt; [reflexivity|].
  cbn. f_equal. apply IH.
Qed.

Lemma delays_failed_attempts u d attempt k :
  delays (failed_attempts u d attempt k ++ [EvRequest u])
  = List.map (fun i => d * 2 ^ (attempt + Z.of_nat i - 1)) (seq 0 k).
Proof.
  revert attempt. induction k as [|k IH]; intros attempt; [reflexivity|].
  cbn [failed_attempts app delays seq List.map]. f_equal.
  - f_equal. f_equal. lia.
  - rewrite IH, <- seq_shift, List.map_map. apply List.map_ext.
    intros i. f_equal. f_equal. lia.
Qed.



(** ** Specified behaviour of the JSON client *)

(** C2, as the code has it: an entry written by [LocalCache.set] at time
    T is read back unchanged by [LocalCache.get] at time T + TTL - 1,
    and [fetch] then resolves with it without any request or delay
    provided the stored value is truthy; at time T + TTL + 1 the read
    returns null and removes the entry, and [fetch] issues a request. *)
Theorem cached_entry_lifetime (v : json) (w : world) :
  storage_enabled env = true -> storage_full env = false ->
  (dates env (S (ticks w)) = dates env (ticks w) + CACHE_DURATION cfg - 1 ->
   (get key (put key v w)).1 = v
   /\ (truthy v = true ->
       exists w',
         fetch cfg env JSON_stringify query_toString endpoint params 1
               (put key v w)
         = Some (Resolved v, w')
         /\ trace w' = trace w /\ requests w' = requests w))
  /\ (dates env (S (ticks w)) = dates env (ticks w) + CACHE_DURATION cfg + 1 ->
      (get key (put key v w)).1 = JNull
      /\ localStorage (get key (put key v w)).2 !! (prefix ++ key) = None
      /\ exists out w' rest,
          fetch cfg env JSON_stringify query_toString endpoint params 1
                (put key v w)
          = Some (out, w')
          /\ trace w' = trace w ++ EvRequest url :: rest).
Proof.
  intros Hen Hfull.
  assert (Hget : forall b,
    (dates env (S (ticks w)) - dates env (ticks w) <? CACHE_DURATION cfg) = b ->
    get key (put key v w)
    = if b
      then (v, (Date_now env (put key v w)).2)
      else (JNull, removeItem (prefix ++ key) (Date_now env (put key v w)).2)).
  { intros b Hb. unfold LocalCache_get, LocalCache_set, getItem, setItem.
    rewrite Hen, Hfull. cbn. rewrite lookup_insert_eq. cbn. by rewrite Hb. }
  pose proof (LocalCache_set_events key v w) as [Htr Hreq].
  split; intros Hdate.
  - rewrite (Hget true) by (apply Z.ltb_lt; lia).
    split; [reflexivity|]. intros Hv.
    eexists. split.
    + unfold fetch. rewrite fetch_loop_hit;
        rewrite (Hget true) by (apply Z.ltb_lt; lia); [reflexivity|exact Hv].
    + unfold Date_now. cbn [snd trace requests]. by rewrite Htr, Hreq.
  - rewrite (Hget false) by (apply Z.ltb_ge; lia).
    split; [reflexivity|]. split; [cbn; apply lookup_delete_eq|].
    rewrite <- Htr. apply fetch_loop_miss_requests; [lia|].
    by rewrite (Hget false) by (apply Z.ltb_ge; lia).
Qed.

(** C3: with at least 3 attempts configured, a call that misses the
    cache, fails on attempts 1 and 2 and succeeds on attempt 3 resolves
    with the value of attempt 3; it awaits the base delay d between the
    first and the second request and 2d between the second and the
    third, which are d * 2^(attempt - 1) for attempts 1 and 2. *)
Theorem fetch_succeeds_on_third_attempt (v : json) (w : world) :
  3 <= RETRY_ATTEMPTS cfg ->
  truthy (get key w).1 = false ->
  (exists e, read_payload (net env (requests w)) = inl e) ->
  (exists e, read_payload (net env (S (requests w))) = inl e) ->
  read_payload (net env (S (S (requests w)))) = inr v ->
  exists w',
    fetch cfg env JSON_stringify query_toString endpoint params 1 w
    = Some (Resolved v, w')
    /\ trace w'
       = trace w ++ [EvRequest url; EvDelay (RETRY_DELAY cfg);
                     EvRequest url; EvDelay (2 * RETRY_DELAY cfg);
                     EvRequest url]
    /\ [RETRY_DELAY cfg; 2 * RETRY_DELAY cfg]
       = List.map (fun attempt => RETRY_DELAY cfg * 2 ^ (attempt - 1)) [1; 2].
Proof.
  intros HN Hmiss Hf1 Hf2 Hok. unfold fetch.
  replace (S (Z.to_nat (RETRY_ATTEMPTS cfg - 1)))
    with (2 + S (Z.to_nat (RETRY_ATTEMPTS cfg - 3)))%nat by lia.
  destruct (fetch_loop_failures_then_success 2 (Z.to_nat (RETRY_ATTEMPTS cfg - 3))
              w v Hmiss) as (w' & Hrun & Htr).
  - intros [|[|i]] Hi; [| |lia].
    + split; [lia|]. by rewrite Nat.add_0_r.
    + split; [lia|]. by rewrite Nat.add_1_r.
  - by replace (requests w + 2)%nat with (S (S (requests w))) by lia.
  - exists w'. split; [exact Hrun|]. split.
    + rewrite Htr. cbn [failed_attempts app].
      change (2 ^ (1 - 1)) with 1. change (2 ^ (1 + 1 - 1)) with 2.
      by rewrite Z.mul_1_r, (Z.mul_comm _ 2).
    + cbn [List.map]. change (2 ^ (1 - 1)) with 1. change (2 ^ (2 - 1)) with 2.
      by rewrite Z.mul_1_r, (Z.mul_comm _ 2).
Qed.


End ClientFacts.

(** ** The JSON client on sample runs *)

Section ClientSamples.
Import DynamicData.

Local Abbreviation eventos := (str "eventos").
Local Abbreviation sample_fetch env :=
  (fetch API_CONFIG env stringify_sample query_sample eventos [] 1).
Local Abbreviation sample_key := (cacheKey stringify_sample eventos []).
Local Abbreviation sample_url :=
  (request_url API_CONFIG query_sample eventos []).

Lemma fetch_succeeds_on_third_attempt_witness :
  exists w',
    sample_fetch env_flaky world0 = Some (Resolved envelope, w')
    /\ trace w'
       = trace world0 ++ [EvRequest sample_url; EvDelay 1000;
                          EvRequest sample_url; EvDelay (2 * 1000);
                          EvRequest sample_url]
    /\ [1000; 2 * 1000]
       = List.map (fun attempt => 1000 * 2 ^ (attempt - 1)) [1; 2].
Proof.
  apply (fetch_succeeds_on_third_attempt
           API_CONFIG env_flaky stringify_sample query_sample eventos []
           envelope world0).
  - compute_done.
  - vm_compute. reflexivity.
  - eexists. vm_compute. reflexivity.
  - eexists. vm_compute. reflexivity.
  - vm_compute. reflexivity.
Defined.


Lemma cached_entry_lifetime_witness :
  ((LocalCache_get API_CONFIG (env_clock (1800000 - 1) envelope) sample_key
      (LocalCache_set (env_clock (1800000 - 1) envelope) sample_key
                      envelope world0)).1 = envelope
   /\ exists w',
       sample_fetch (env_clock (1800000 - 1) envelope)
         (LocalCache_set (env_clock (1800000 - 1) envelope) sample_key
                         envelope world0)
       = Some (Resolved envelope, w')
       /\ trace w' = trace world0 /\ requests w' = requests world0)
  /\ ((LocalCache_get API_CONFIG (env_clock (1800000 + 1) envelope) sample_key
         (LocalCache_set (env_clock (1800000 + 1) envelope) sample_key
                         envelope world0)).1 = JNull
      /\ exists out w' rest,
          sample_fetch (env_clock (1800000 + 1) envelope)
            (LocalCache_set (env_clock (1800000 + 1) envelope) sample_key
                            envelope world0)
          = Some (out, w')
          /\ trace w' = trace world0 ++ EvRequest sample_url :: rest).
Proof.
  split.
  - destruct (proj1 (cached_entry_lifetime
                       API_CONFIG (env_clock (1800000 - 1) envelope)
                       stringify_sample query_sample eventos []
                       envelope world0 eq_refl eq_refl) eq_refl) as [Hget Hfetch].
    split; [exact Hget | exact (Hfetch eq_refl)].
  - destruct (proj2 (cached_entry_lifetime
                       API_CONFIG (env_clock (1800000 + 1) envelope)
                       stringify_sample query_sample eventos []
                       envelope world0 eq_refl eq_refl) eq_refl)
      as (Hget & _ & Hfetch).
    split; [exact Hget | exact Hfetch].
Defined.

(** The number 0 stored at time 1000 is still returned by the cache read
    at time 1000 + TTL - 1, but [fetch] takes the falsy value for a miss
    and issues a request. *)
Lemma falsy_entry_is_fetched_again :
  dates (env_clock (1800000 - 1) (JNumber 0)) 1
  = dates (env_clock (1800000 - 1) (JNumber 0)) 0
    + CACHE_DURATION API_CONFIG - 1
  /\ (LocalCache_get API_CONFIG (env_clock (1800000 - 1) (JNumber 0)) sample_key
        (LocalCache_set (env_clock (1800000 - 1) (JNumber 0)) sample_key
                        (JNumber 0) world0)).1 = JNumber 0
  /\ ~ (exists w',
         sample_fetch (env_clock (1800000 - 1) (JNumber 0))
           (LocalCache_set (env_clock (1800000 - 1) (JNumber 0)) sample_key
                           (JNumber 0) world0)
         = Some (Resolved (JNumber 0), w')
         /\ trace w' = trace world0 /\ requests w' = requests world0).
Proof.
  split; [reflexivity|]. split; [vm_compute; reflexivity|].
  intros (w' & Hrun & Htr & _).
  assert (Hreal :
    (fun r => trace r.2) <$>
      sample_fetch (env_clock (1800000 - 1) (JNumber 0))
        (LocalCache_set (env_clock (1800000 - 1) (JNumber 0)) sample_key
                        (JNumber 0) world0)
    = Some [EvRequest sample_url]) by (vm_compute; reflexivity).
  rewrite Hrun in Hreal. cbn in Hreal. rewrite Htr in Hreal.
  discriminate Hreal.
Qed.

(** An error field that is present but falsy is not a failure: the
    payload is the result of the attempt. *)
Example falsy_error_field_is_success :
  read_payload (reply_json (JObject [(str "error", JString [])]))
  = inr (JObject [(str "error", JString [])]).
Proof. vm_compute. reflexivity. Qed.

End ClientSamples.

(** * Properties of the CSV client, and the two clients compared *)

Section SheetsFacts.
Import RepositorioDinamico.

Variable cfg : config.
Variable env : browser.

Local Abbreviation cget := (CacheManager_get cfg env).

Lemma CacheManager_get_events k w :
  trace (cget k w).2 = trace w /\ requests (cget k w).2 = requests w.
Proof.
  unfold CacheManager_get, getItem.
  destruct (storage_enabled env); [|done].
  destruct (localStorage w !! (prefix ++ k)) as [item|]; [|done].
  cbn. by destruct (_ >? _).
Qed.

(** A request that fails settles [fetchSheet] at once: one request, no
    delay, the error of that request. *)
Lemma fetchSheet_failure gid w e :
  truthy (cget gid w).1 = false ->
  (exists reason, net env (requests w) = Unreachable reason
                  /\ e = NetworkError reason)
  \/ (exists resp, net env (requests w) = Replied resp /\ ok resp = false
                   /\ e = ErroHTTP (status resp) (statusText resp)) ->
  exists w',
    fetchSheet cfg env gid w = (Rejected e, w')
    /\ trace w' = trace w ++ [EvRequest (sheet_url cfg gid)].
Proof.
  intros Hmiss Hfail. unfold fetchSheet.
  pose proof (CacheManager_get_events gid w) as [Htr Hreq].
  destruct (cget gid w) as [cached w1]. cbn in Hmiss, Htr, Hreq.
  rewrite Hmiss. cbn. rewrite Hreq, Htr.
  destruct Hfail as [(reason & -> & ->)|(resp & -> & Hok & ->)].
  - eauto.
  - rewrite Hok. cbn. eauto.
Qed.

End SheetsFacts.

Section Comparison.

Variable api : DynamicData.api_config.
Variable sheets : RepositorioDinamico.config.
Variable env : browser.

(** C10: for an item in the storage, read when its age is exactly the
    cache duration, [LocalCache.get] removes it and returns null while
    [CacheManager.get] returns its data; with the same duration
    configured for both, the two reads return the same value and leave
    the same world at every other age. *)
Theorem cache_reads_differ_at_expiry (k : jsstring) (item : cache_item)
        (w : world) :
  storage_enabled env = true ->
  localStorage w !! (prefix ++ k) = Some item ->
  (dates env (ticks w) - timestamp item = DynamicData.CACHE_DURATION api ->
   DynamicData.LocalCache_get api env k w
   = (JNull, removeItem (prefix ++ k) (Date_now env w).2))
  /\ (dates env (ticks w) - timestamp item
      = RepositorioDinamico.CACHE_DURATION sheets ->
      RepositorioDinamico.CacheManager_get sheets env k w
      = (data item, (Date_now env w).2))
  /\ (DynamicData.CACHE_DURATION api = RepositorioDinamico.CACHE_DURATION sheets ->
      dates env (ticks w) - timestamp item <> DynamicData.CACHE_DURATION api ->
      DynamicData.LocalCache_get api env k w
      = RepositorioDinamico.CacheManager_get sheets env k w).
Proof.
  intros Hen Hitem.
  unfold DynamicData.LocalCache_get, RepositorioDinamico.CacheManager_get,
    getItem.
  rewrite Hen, Hitem. cbn [Date_now snd].
  split; [|split].
  - intros ->. by rewrite Z.ltb_irrefl.
  - intros ->. by rewrite Z.gtb_ltb, Z.ltb_irrefl.
  - intros <- Hage. rewrite Z.gtb_ltb.
    destruct (Z.ltb_spec (dates env (ticks w) - timestamp item)
                         (DynamicData.CACHE_DURATION api)) as [Hlt|Hge].
    + rewrite (proj2 (Z.ltb_ge _ _)) by lia. reflexivity.
    + rewrite (proj2 (Z.ltb_lt _ _)) by lia. reflexivity.
Qed.

End Comparison.

Section Variants.

Variable api : DynamicData.api_config.
Variable sheets : RepositorioDinamico.config.
Variable env : browser.
Variable JSON_stringify : object -> jsstring.
Variable query_toString : list (jsstring * jsstring) -> jsstring.

(** C5, as the code has it: only the JSON client retries.  When a call
    of [fetch] misses the cache and every attempt fails, it makes
    [Z.max 1 RETRY_ATTEMPTS] requests, awaits RETRY_DELAY * 2^(k - 1)
    after the failed attempt number k that is not the last, and then
    rejects with the last error.  When a call of [fetchSheet] misses the
    cache and its request fails, it rejects with that error after this
    one request, without any delay. *)
Theorem retry_only_in_json_client (endpoint : jsstring) (params : object)
        (gid : jsstring) (w : world) (e_sheet : error) :
  (truthy (DynamicData.LocalCache_get api env
             (DynamicData.cacheKey JSON_stringify endpoint params) w).1 = false ->
   (forall i, Z.of_nat i < Z.max 1 (DynamicData.RETRY_ATTEMPTS api) ->
              exists e, DynamicData.read_payload (net env (requests w + i))
                        = inl e) ->
   exists e w',
     DynamicData.fetch api env JSON_stringify query_toString endpoint params 1 w
     = Some (Rejected e, w')
     /\ count_requests (drop (length (trace w)) (trace w'))
        = Z.to_nat (Z.max 1 (DynamicData.RETRY_ATTEMPTS api))
     /\ delays (drop (length (trace w)) (trace w'))
        = List.map
            (fun i => DynamicData.RETRY_DELAY api * 2 ^ (1 + Z.of_nat i - 1))
            (seq 0 (Z.to_nat (Z.max 1 (DynamicData.RETRY_ATTEMPTS api) - 1))))
  /\ (truthy (RepositorioDinamico.CacheManager_get sheets env gid w).1 = false ->
      (exists reason, net env (requests w) = Unreachable reason
                      /\ e_sheet = NetworkError reason)
      \/ (exists resp, net env (requests w) = Replied resp /\ ok resp = false
                       /\ e_sheet = ErroHTTP (status resp) (statusText resp)) ->
      exists w',
        RepositorioDinamico.fetchSheet sheets env gid w = (Rejected e_sheet, w')
        /\ trace w'
           = trace w ++ [EvRequest (RepositorioDinamico.sheet_url sheets gid)]).
Proof.
  split.
  - intros Hmiss Hfail.
    destruct (fetch_all_attempts_fail api env JSON_stringify query_toString
                endpoint params w Hmiss Hfail) as (e & w' & Hrun & _ & Htr).
    exists e, w'. split; [exact Hrun|].
    rewrite Htr, drop_app_length.
    rewrite count_requests_failed_attempts, delays_failed_attempts.
    split; [lia | reflexivity].
  - apply fetchSheet_failure.
Qed.

End Variants.

(** ** The clients on sample runs *)

Lemma retry_only_in_json_client_witness :
  (exists e w',
     DynamicData.fetch DynamicData.API_CONFIG env_down stringify_sample
                       query_sample (str "eventos") [] 1 world0
     = Some (Rejected e, w')
     /\ count_requests (drop (length (trace world0)) (trace w'))
        = Z.to_nat (Z.max 1 3)
     /\ delays (drop (length (trace world0)) (trace w'))
        = List.map (fun i => 1000 * 2 ^ (1 + Z.of_nat i - 1))
                   (seq 0 (Z.to_nat (Z.max 1 3 - 1))))
  /\ (exists w',
        RepositorioDinamico.fetchSheet RepositorioDinamico.CONFIG env_down
                                       (str "0") world0
        = (Rejected (ErroHTTP 503 (str "")), w')
        /\ trace w'
           = trace world0
               ++ [EvRequest (RepositorioDinamico.sheet_url
                                RepositorioDinamico.CONFIG (str "0"))]).
Proof.
  pose proof (retry_only_in_json_client
                DynamicData.API_CONFIG RepositorioDinamico.CONFIG env_down
                stringify_sample query_sample (str "eventos") [] (str "0")
                world0 (ErroHTTP 503 (str ""))) as [Hjson Hcsv].
  split.
  - apply Hjson; [vm_compute; reflexivity|].
    intros i _. eexists. reflexivity.
  - apply Hcsv; [vm_compute; reflexivity|].
    right. eexists. split; [reflexivity|]. split; reflexivity.
Defined.

(** With every request answered by status 503, [fetchSheet] makes one
    request and rejects: no second request, no delay. *)
Lemma fetchSheet_does_not_retry :
  (RepositorioDinamico.fetchSheet RepositorioDinamico.CONFIG env_down
                                  (str "0") world0).1
  = Rejected (ErroHTTP 503 (str ""))
  /\ ~ (1 < count_requests
              (trace (RepositorioDinamico.fetchSheet
                        RepositorioDinamico.CONFIG env_down (str "0")
                        world0).2))%nat
  /\ delays (trace (RepositorioDinamico.fetchSheet
                      RepositorioDinamico.CONFIG env_down (str "0") world0).2)
     = [].
Proof.
  split; [vm_compute; reflexivity|].
  split; [vm_compute; lia | vm_compute; reflexivity].
Qed.

Lemma cache_reads_differ_at_expiry_witness :
  DynamicData.LocalCache_get DynamicData.API_CONFIG
    (env_clock 1800000 envelope) (str "eventos")
    (world_with (str "eventos") (CacheItem 1000 envelope))
  = (JNull,
     removeItem (prefix ++ str "eventos")
       (Date_now (env_clock 1800000 envelope)
                 (world_with (str "eventos") (CacheItem 1000 envelope))).2)
  /\ RepositorioDinamico.CacheManager_get RepositorioDinamico.CONFIG
       (env_clock 300000 envelope) (str "eventos")
       (world_with (str "eventos") (CacheItem 1000 envelope))
     = (envelope,
        (Date_now (env_clock 300000 envelope)
                  (world_with (str "eventos") (CacheItem 1000 envelope))).2)
  /\ DynamicData.LocalCache_get DynamicData.API_CONFIG
       (env_clock 1800001 envelope) (str "eventos")
       (world_with (str "eventos") (CacheItem 1000 envelope))
     = RepositorioDinamico.CacheManager_get
         (RepositorioDinamico.Config (str "SUA_PLANILHA_ID_AQUI") 1800000)
         (env_clock 1800001 envelope) (str "eventos")
         (world_with (str "eventos") (CacheItem 1000 envelope)).
Proof.
  split; [|split].
  - apply (proj1 (cache_reads_differ_at_expiry
                    DynamicData.API_CONFIG RepositorioDinamico.CONFIG
                    (env_clock 1800000 envelope) (str "eventos")
                    (CacheItem 1000 envelope)
                    (world_with (str "eventos") (CacheItem 1000 envelope))
                    eq_refl (lookup_singleton_eq _ _))).
    reflexivity.
  - apply (proj1 (proj2 (cache_reads_differ_at_expiry
                    DynamicData.API_CONFIG RepositorioDinamico.CONFIG
                    (env_clock 300000 envelope) (str "eventos")
                    (CacheItem 1000 envelope)
                    (world_with (str "eventos") (CacheItem 1000 envelope))
                    eq_refl (lookup_singleton_eq _ _)))).
    reflexivity.
  - apply (proj2 (proj2 (cache_reads_differ_at_expiry
                    DynamicData.API_CONFIG
                    (RepositorioDinamico.Config (str "SUA_PLANILHA_ID_AQUI")
                                                1800000)
                    (env_clock 1800001 envelope) (str "eventos")
                    (CacheItem 1000 envelope)
                    (world_with (str "eventos") (CacheItem 1000 envelope))
                    eq_refl (lookup_singleton_eq _ _)))).
    + reflexivity.
    + compute_done.
Defined.

(** * Further properties of the CSV parser *)

Section LineMore.
Import RepositorioDinamico.

Lemma count_char_cons c d s :
  count_char c (d :: s)
  = ((if (c =? d)%N then 1 else 0) + count_char c s)%nat.
Proof. unfold count_char. cbn. by destruct (c =? d)%N. Qed.

(** Without quotes every comma ends a field. *)
Lemma scan_fields_no_quote line : forall res cur,
  dquote ∉ line ->
  length (ls_result (scan line (LineState res cur false)))
  = (length res + count_char comma line)%nat.
Proof.
  induction line as [|c rest IH]; intros res cur Hq.
  - cbn. unfold count_char. cbn. lia.
  - apply not_elem_of_cons in Hq as [Hc Hq].
    rewrite count_char_cons.
    destruct (N.eqb_spec comma c) as [<-|Hne].
    + rewrite scan_comma_outside, IH by exact Hq.
      rewrite length_app. cbn. lia.
    + rewrite scan_other by (auto; congruence).
      rewrite IH by exact Hq. lia.
Qed.

(** In general a comma ends at most one field. *)
Lemma scan_fields_bound line : forall st,
  (length (ls_result (scan line st))
   <= length (ls_result st) + count_char comma line)%nat.
Proof.
  induction line as [|c rest IH1 IH2] using line_ind2; intros st.
  - cbn. lia.
  - rewrite count_char_cons. cbn [scan].
    destruct (N.eqb_spec c dquote) as [->|Hc].
    + change (comma =? dquote)%N with false. cbn [Nat.add].
      destruct rest as [|c' rest'].
      * cbn. lia.
      * destruct (ls_inQuotes st && (c' =? dquote)%N) eqn:Hesc.
        -- etransitivity; [apply (IH2 c' rest' eq_refl)|].
           cbn [ls_result]. rewrite count_char_cons. lia.
        -- etransitivity; [apply IH1|]. cbn [ls_result]. lia.
    + destruct (N.eqb_spec c comma) as [->|Hc'].
      * rewrite N.eqb_refl.
        destruct (negb (ls_inQuotes st)); cbn [andb].
        -- etransitivity; [apply IH1|]. cbn [ls_result].
           rewrite length_app. cbn. lia.
        -- etransitivity; [apply IH1|]. cbn [ls_result]. lia.
      * cbn [andb]. etransitivity; [apply IH1|]. cbn [ls_result].
        destruct (comma =? c)%N; lia.
Qed.

(** X1: a line has at most one field more than it has commas, and
    exactly that many when it contains no quote character. *)
Theorem parseCSVLine_field_count (line : jsstring) :
  (1 <= length (parseCSVLine line) <= S (count_char comma line))%nat
  /\ (dquote ∉ line ->
      length (parseCSVLine line) = S (count_char comma line)).
Proof.
  unfold parseCSVLine, scan_init. rewrite !length_app. cbn [length].
  split.
  - pose proof (scan_fields_bound line (LineState [] [] false)) as H.
    cbn [ls_result length] in H. lia.
  - intros Hq. rewrite scan_fields_no_quote by exact Hq. cbn. lia.
Qed.

(** ** Trailing whitespace *)

Lemma trimStart_app s t :
  trimStart (s ++ t)
  = match trimStart s with [] => trimStart t | _ :: _ => trimStart s ++ t end.
Proof.
  induction s as [|c s IH]; cbn.
  - by destruct (trimStart t).
  - destruct (is_space c); [exact IH | reflexivity].
Qed.

Lemma trim_snoc_space s c : is_space c = true -> trim (s ++ [c]) = trim s.
Proof.
  intros Hc. unfold trim, trimEnd. rewrite trimStart_app.
  destruct (trimStart s) as [|d x] eqn:Hx.
  - cbn. by rewrite Hc.
  - rewrite rev_unit. cbn [trimStart]. by rewrite Hc.
Qed.

Lemma scan_snoc c line : forall st,
  c <> dquote -> c <> comma ->
  scan (line ++ [c]) st
  = LineState (ls_result (scan line st))
              (ls_current (scan line st) ++ [c])
              (ls_inQuotes (scan line st)).
Proof.
  intros st Hq Hc. revert st.
  induction line as [|x rest IH1 IH2] using line_ind2; intros st.
  - destruct st as [res cur q]. cbn [app].
    rewrite scan_other by auto. reflexivity.
  - cbn [app scan].
    destruct (x =? dquote)%N.
    + destruct rest as [|c' rest'].
      * cbn [app]. destruct (N.eqb_spec c dquote) as [->|_]; [contradiction|].
        rewrite andb_false_r. rewrite scan_other by auto. reflexivity.
      * cbn [app].
        destruct (ls_inQuotes st && (c' =? dquote)%N).
        -- apply (IH2 c' rest' eq_refl).
        -- apply IH1.
    + destruct ((x =? comma)%N && negb (ls_inQuotes st)); apply IH1.
Qed.

(** X2: whitespace at the end of a line, such as the carriage return of
    a CRLF line ending, does not change the fields of the line. *)
Theorem parseCSVLine_trailing_space (line tail : jsstring) :
  Forall (fun c => is_space c = true) tail ->
  parseCSVLine (line ++ tail) = parseCSVLine line.
Proof.
  induction tail as [|c tail IH] using rev_ind; intros Hsp.
  - by rewrite app_nil_r.
  - apply Forall_app in Hsp as [Htail Hc]. rewrite Forall_singleton in Hc.
    rewrite app_assoc. rewrite <- (IH Htail).
    unfold parseCSVLine. rewrite scan_snoc.
    + cbn [ls_result ls_current]. by rewrite trim_snoc_space by exact Hc.
    + intros ->. discriminate Hc.
    + intros ->. discriminate Hc.
Qed.

Lemma parseCSVLine_trailing_space_witness :
  parseCSVLine (str "a, b" ++ [13%N; 32%N]) = parseCSVLine (str "a, b").
Proof.
  apply parseCSVLine_trailing_space. repeat constructor.
Defined.

Lemma parseCSVLine_field_count_witness :
  length (parseCSVLine (str "a,,b;c")) = S (count_char comma (str "a,,b;c")).
Proof.
  apply (proj2 (parseCSVLine_field_count (str "a,,b;c"))). compute_done.
Defined.

End LineMore.

(** ** Keys and values of a record, for any header *)

Section RecordMore.
Import RepositorioDinamico.

Lemma keys_replace_value key value (o : object) :
  keys (replace_value key value o) = keys o.
Proof.
  unfold keys. induction o as [|[k v] o IH]; [reflexivity|]. cbn.
  destruct (key_eqb k key); cbn; [reflexivity | by rewrite IH].
Qed.

Lemma keys_insert_index n key value (o : object) :
  keys (insert_index n key value o) ≡ₚ key :: keys o.
Proof.
  unfold keys. induction o as [|[k v] o IH]; [reflexivity|]. cbn.
  destruct (array_index k) as [m|]; [|reflexivity].
  destruct (m <? n)%N; [|reflexivity].
  cbn. rewrite IH. apply Permutation_swap.
Qed.

Lemma keys_insert_index_value n key v1 v2 (o1 o2 : object) :
  keys o1 = keys o2 ->
  keys (insert_index n key v1 o1) = keys (insert_index n key v2 o2).
Proof.
  unfold keys. revert o2.
  induction o1 as [|[k a] o1 IH]; intros [|[k' b] o2] Hk;
    try discriminate; [reflexivity|].
  cbn in Hk. injection Hk as <- Hk. cbn.
  destruct (array_index k) as [m|]; [|cbn; by rewrite Hk].
  destruct (m <? n)%N; cbn; [by rewrite (IH o2 Hk) | by rewrite Hk].
Qed.

Lemma has_key_keys key (o1 o2 : object) :
  keys o1 = keys o2 -> has_key key o1 = has_key key o2.
Proof.
  intros Hk. destruct (has_key key o1) eqn:H1, (has_key key o2) eqn:H2;
    try reflexivity.
  - apply has_key_false_iff in H2. rewrite <- Hk in H2.
    apply has_key_false_iff in H2. congruence.
  - apply has_key_false_iff in H1. rewrite Hk in H1.
    apply has_key_false_iff in H1. congruence.
Qed.

(** The keys after an assignment depend on the keys before it, not on
    the values. *)
Lemma keys_obj_set_value key v1 v2 (o1 o2 : object) :
  keys o1 = keys o2 ->
  keys (obj_set key v1 o1) = keys (obj_set key v2 o2).
Proof.
  intros Hk. unfold obj_set.
  destruct (key_eqb key proto_key); [exact Hk|].
  rewrite (has_key_keys key o1 o2 Hk).
  destruct (has_key key o2).
  - by rewrite !keys_replace_value.
  - destruct (array_index key) as [n|].
    + by apply keys_insert_index_value.
    + unfold keys in *. by rewrite !fmap_app, Hk.
Qed.

Lemma keys_obj_set key value (o : object) :
  NoDup (keys o) ->
  NoDup (keys (obj_set key value o))
  /\ forall h, h ∈ keys (obj_set key value o)
               <-> h ∈ keys o \/ (h = key /\ key <> proto_key).
Proof.
  intros Hnd. unfold obj_set, key_eqb.
  destruct (decide (key = proto_key)) as [Hp|Hp].
  - rewrite bool_decide_eq_true_2 by exact Hp. split; [exact Hnd|].
    intros h. intuition.
  - rewrite bool_decide_eq_false_2 by exact Hp.
    destruct (has_key key o) eqn:Hhas.
    + rewrite keys_replace_value. split; [exact Hnd|].
      intros h. split; [auto|]. intros [H|[-> _]]; [exact H|].
      destruct (decide (key ∈ keys o)) as [Hin|Hout]; [exact Hin|].
      apply has_key_false_iff in Hout. congruence.
    + apply has_key_false_iff in Hhas.
      assert (Hperm : exists ks, ks ≡ₚ key :: keys o
                /\ ks = keys (match array_index key with
                              | Some n => insert_index n key value o
                              | None => o ++ [(key, value)]
                              end)).
      { destruct (array_index key) as [n|].
        - eexists. split; [apply keys_insert_index | reflexivity].
        - eexists. split; [|reflexivity]. unfold keys.
          rewrite fmap_app. cbn. by rewrite Permutation_app_comm. }
      destruct Hperm as (ks & Hperm & <-). split.
      * rewrite Hperm. by apply NoDup_cons.
      * intros h. rewrite Hperm, elem_of_cons. intuition.
Qed.

Lemma keys_fill_record headers : forall index values (obj : object),
  NoDup (keys obj) ->
  NoDup (keys (fill_record headers index values obj))
  /\ forall h, h ∈ keys (fill_record headers index values obj)
               <-> h ∈ keys obj \/ (h ∈ headers /\ h <> proto_key).
Proof.
  induction headers as [|header rest IH]; intros index values obj Hnd.
  - cbn. split; [exact Hnd|]. intros h. rewrite elem_of_nil. intuition.
  - cbn [fill_record].
    destruct (keys_obj_set header (value_or_empty values index) obj Hnd)
      as [Hnd' Hin'].
    destruct (IH (S index) values _ Hnd') as [Hnd'' Hin''].
    split; [exact Hnd''|].
    intros h. rewrite Hin'', Hin', elem_of_cons.
    split; [intros [[H|[-> H]]|[H1 H2]]; auto|].
    intros [H|[[->|H] Hp]]; auto.
Qed.

Lemma keys_fill_record_value headers : forall i1 i2 v1 v2 (o1 o2 : object),
  keys o1 = keys o2 ->
  keys (fill_record headers i1 v1 o1) = keys (fill_record headers i2 v2 o2).
Proof.
  induction headers as [|header rest IH]; intros i1 i2 v1 v2 o1 o2 Hk.
  - exact Hk.
  - cbn [fill_record]. apply IH. by apply keys_obj_set_value.
Qed.

Lemma elem_of_parseCSV csvText header_line data_line data_lines r :
  nonempty_lines csvText = header_line :: data_line :: data_lines ->
  r ∈ parseCSV csvText ->
  exists line, line ∈ data_line :: data_lines
               /\ r = make_record (parseCSVLine header_line) line.
Proof.
  intros Hlines. rewrite (parseCSV_rows _ _ _ _ Hlines).
  rewrite list_elem_of_In, in_map_iff.
  intros (line & <- & Hin). exists line.
  by rewrite list_elem_of_In.
Qed.

(** X3: whatever the header, the keys of a record are pairwise distinct,
    they are the header columns other than [__proto__], and all records
    of one text have the same keys in the same order. *)
Theorem parseCSV_record_keys (csvText header_line data_line : jsstring)
        (data_lines : list jsstring) (r : object) :
  nonempty_lines csvText = header_line :: data_line :: data_lines ->
  r ∈ parseCSV csvText ->
  NoDup (keys r)
  /\ (forall h, h ∈ keys r
                <-> h ∈ parseCSVLine header_line /\ h <> proto_key)
  /\ (forall r', r' ∈ parseCSV csvText -> keys r' = keys r).
Proof.
  intros Hlines Hr.
  destruct (elem_of_parseCSV _ _ _ _ _ Hlines Hr) as (line & _ & ->).
  unfold make_record.
  destruct (keys_fill_record (parseCSVLine header_line) 0
              (parseCSVLine line) [] (NoDup_nil_2)) as [Hnd Hin].
  split; [exact Hnd|]. split.
  - intros h. rewrite Hin. cbn. rewrite elem_of_nil. intuition.
  - intros r' Hr'.
    destruct (elem_of_parseCSV _ _ _ _ _ Hlines Hr') as (line' & _ & ->).
    by apply keys_fill_record_value.
Qed.

(** ** Reading a column *)

Lemma obj_get_replace_value key k' value (o : object) :
  obj_get k' (replace_value key value o)
  = if decide (k' = key)
    then (if has_key key o then Some value else None)
    else obj_get k' o.
Proof.
  induction o as [|[k v] o IH].
  - cbn. by destruct (decide _).
  - cbn [replace_value has_key]. unfold key_eqb at 1 2.
    destruct (decide (k = key)) as [->|Hk].
    + rewrite !bool_decide_eq_true_2 by reflexivity.
      cbn [obj_get orb]. unfold key_eqb.
      destruct (decide (k' = key)) as [->|Hk'].
      * by rewrite bool_decide_eq_true_2.
      * by rewrite !bool_decide_eq_false_2 by congruence.
    + rewrite !bool_decide_eq_false_2 by exact Hk.
      cbn [obj_get orb]. unfold key_eqb. rewrite IH.
      destruct (decide (k' = key)) as [->|Hk'].
      * by rewrite bool_decide_eq_false_2 by exact Hk.
      * reflexivity.
Qed.

Lemma obj_get_absent key (o : object) :
  has_key key o = false -> obj_get key o = None.
Proof.
  induction o as [|[k v] o IH]; [reflexivity|]. cbn.
  destruct (key_eqb k key); [discriminate | exact IH].
Qed.

Lemma obj_get_insert_index n key k' value (o : object) :
  has_key key o = false ->
  obj_get k' (insert_index n key value o)
  = if decide (k' = key) then Some value else obj_get k' o.
Proof.
  intros Hfresh.
  assert (Hhead : forall rest : object,
    obj_get k' ((key, value) :: rest)
    = if decide (k' = key) then Some value else obj_get k' rest).
  { intros rest. cbn. unfold key_eqb.
    destruct (decide (k' = key)) as [->|Hne].
    - by rewrite bool_decide_eq_true_2.
    - by rewrite bool_decide_eq_false_2 by congruence. }
  induction o as [|[k v] o IH]; [apply Hhead|].
  cbn in Hfresh. apply orb_false_iff in Hfresh as [Hk Hfresh].
  cbn [insert_index].
  destruct (array_index k) as [m|]; [|apply Hhead].
  destruct (m <? n)%N; [|apply Hhead].
  cbn [obj_get]. rewrite (IH Hfresh).
  unfold key_eqb in *. apply bool_decide_eq_false in Hk.
  destruct (decide (k' = key)) as [->|Hne]; [|reflexivity].
  by rewrite bool_decide_eq_false_2.
Qed.

Lemma obj_get_snoc key k' value (o : object) :
  has_key key o = false ->
  obj_get k' (o ++ [(key, value)])
  = if decide (k' = key) then Some value else obj_get k' o.
Proof.
  intros Hfresh. induction o as [|[k v] o IH].
  - cbn. unfold key_eqb. destruct (decide (k' = key)) as [->|Hne].
    + by rewrite bool_decide_eq_true_2.
    + by rewrite bool_decide_eq_false_2 by congruence.
  - cbn in Hfresh. apply orb_false_iff in Hfresh as [Hk Hfresh].
    cbn [app obj_get]. rewrite (IH Hfresh).
    unfold key_eqb in *. apply bool_decide_eq_false in Hk.
    destruct (decide (k' = key)) as [->|Hne]; [|reflexivity].
    by rewrite bool_decide_eq_false_2.
Qed.

(** Reading after an assignment. *)
Lemma obj_get_obj_set key k' value (o : object) :
  obj_get k' (obj_set key value o)
  = if decide (k' = key /\ key <> proto_key) then Some value
    else obj_get k' o.
Proof.
  unfold obj_set, key_eqb.
  destruct (decide (key = proto_key)) as [Hp|Hp].
  - rewrite bool_decide_eq_true_2 by exact Hp.
    destruct (decide _) as [[_ H]|_]; [contradiction | reflexivity].
  - rewrite bool_decide_eq_false_2 by exact Hp.
    destruct (has_key key o) eqn:Hhas.
    + rewrite obj_get_replace_value, Hhas.
      destruct (decide (k' = key)), (decide _); tauto || reflexivity.
    + destruct (array_index key) as [n|].
      * rewrite obj_get_insert_index by exact Hhas.
        destruct (decide (k' = key)), (decide _); tauto || reflexivity.
      * rewrite obj_get_snoc by exact Hhas.
        destruct (decide (k' = key)), (decide _); tauto || reflexivity.
Qed.

Lemma obj_get_fill_record_other h headers : forall index values (obj : object),
  h ∉ headers ->
  obj_get h (fill_record headers index values obj) = obj_get h obj.
Proof.
  induction headers as [|header rest IH]; intros index values obj Hh.
  - reflexivity.
  - apply not_elem_of_cons in Hh as [Hne Hh]. cbn [fill_record].
    rewrite IH by exact Hh. rewrite obj_get_obj_set.
    destruct (decide _) as [[H _]|_]; [contradiction | reflexivity].
Qed.

Lemma obj_get_fill_record h headers : forall index values (obj : object) i,
  headers !! i = Some h -> h <> proto_key ->
  (forall j, (i < j)%nat -> headers !! j <> Some h) ->
  obj_get h (fill_record headers index values obj)
  = Some (default [] (values !! (index + i)%nat)).
Proof.
  induction headers as [|header rest IH]; intros index values obj i Hi Hp Hlast.
  - discriminate.
  - cbn [fill_record]. destruct i as [|i]; cbn in Hi.
    + injection Hi as ->.
      rewrite obj_get_fill_record_other.
      * rewrite obj_get_obj_set, value_or_empty_default.
        rewrite decide_True by done. by rewrite Nat.add_0_r.
      * intros Hin. apply list_elem_of_lookup in Hin as [j Hj].
        apply (Hlast (S j)); [lia | exact Hj].
    + rewrite (IH (S index) values _ i Hi Hp).
      * by replace (S index + i)%nat with (index + S i)%nat by lia.
      * intros j Hj. apply (Hlast (S j)). lia.
Qed.

(** X4: under a header column other than [__proto__] a record holds the
    field at the position of the last header column of that name, or the
    empty string when the line has no such field. *)
Theorem parseCSV_last_column_wins (csvText header_line data_line : jsstring)
        (data_lines : list jsstring) (i : nat) (h line : jsstring) :
  nonempty_lines csvText = header_line :: data_line :: data_lines ->
  line ∈ data_line :: data_lines ->
  parseCSVLine header_line !! i = Some h ->
  h <> proto_key ->
  (forall j, (i < j)%nat -> parseCSVLine header_line !! j <> Some h) ->
  make_record (parseCSVLine header_line) line ∈ parseCSV csvText
  /\ obj_get h (make_record (parseCSVLine header_line) line)
     = Some (default [] (parseCSVLine line !! i)).
Proof.
  intros Hlines Hline Hi Hp Hlast. split.
  - rewrite (parseCSV_rows _ _ _ _ Hlines).
    rewrite list_elem_of_In. apply in_map. by rewrite <- list_elem_of_In.
  - unfold make_record.
    by rewrite (obj_get_fill_record h _ 0%nat _ [] i Hi Hp Hlast).
Qed.

End RecordMore.

(** ** Blank lines and line breaks *)

Section TextMore.
Import RepositorioDinamico.

Lemma split_newline_nonnil s : split_newline s <> [].
Proof.
  induction s as [|c s IH]; cbn; [discriminate|].
  destruct (c =? newline)%N; [discriminate|].
  by destruct (split_newline s).
Qed.

Lemma split_newline_break s t :
  split_newline (s ++ newline :: t) = split_newline s ++ split_newline t.
Proof.
  induction s as [|c s IH]; cbn.
  - reflexivity.
  - destruct (c =? newline)%N; [by rewrite IH|].
    rewrite IH. pose proof (split_newline_nonnil s) as Hs.
    by destruct (split_newline s).
Qed.

Lemma nonempty_lines_break s t :
  nonempty_lines (s ++ newline :: t) = nonempty_lines s ++ nonempty_lines t.
Proof.
  unfold nonempty_lines. by rewrite split_newline_break, List.filter_app.
Qed.

Lemma nonempty_lines_blank blank :
  newline ∉ blank -> trim blank = [] -> nonempty_lines blank = [].
Proof.
  intros Hnl Hb. unfold nonempty_lines.
  rewrite split_newline_single by exact Hnl. cbn. by rewrite Hb.
Qed.

Lemma parseCSV_same_lines a b :
  nonempty_lines a = nonempty_lines b -> parseCSV a = parseCSV b.
Proof. intros H. unfold parseCSV. by rewrite H. Qed.

(** X5: a line that is empty or made of whitespace changes nothing,
    wherever it stands: between two lines, first, or last (a final line
    break included). *)
Theorem parseCSV_ignores_blank_lines (blank before after : jsstring) :
  newline ∉ blank -> trim blank = [] ->
  parseCSV (before ++ newline :: blank ++ newline :: after)
  = parseCSV (before ++ newline :: after)
  /\ parseCSV (blank ++ newline :: after) = parseCSV after
  /\ parseCSV (before ++ newline :: blank) = parseCSV before.
Proof.
  intros Hnl Hb.
  pose proof (nonempty_lines_blank blank Hnl Hb) as Hblank.
  split; [|split]; apply parseCSV_same_lines.
  - by rewrite !nonempty_lines_break, Hblank.
  - by rewrite nonempty_lines_break, Hblank.
  - by rewrite nonempty_lines_break, Hblank, app_nil_r.
Qed.

Lemma parseCSV_ignores_blank_lines_witness :
  parseCSV (str "a,b" ++ newline :: str "  " ++ newline :: str "1,2")
  = parseCSV (str "a,b" ++ newline :: str "1,2")
  /\ parseCSV (str "  " ++ newline :: str "1,2") = parseCSV (str "1,2")
  /\ parseCSV (str "a,b" ++ newline :: str "  ") = parseCSV (str "a,b").
Proof.
  apply parseCSV_ignores_blank_lines; [compute_done | reflexivity].
Defined.

Lemma trim_nonnil_head c s : is_space c = false -> trim (c :: s) <> [].
Proof.
  intros Hc. unfold trim, trimEnd. cbn [trimStart]. rewrite Hc.
  cbn [rev]. rewrite trimStart_snoc by exact Hc. rewrite rev_unit.
  discriminate.
Qed.

Lemma trim_nonnil_last c s : is_space c = false -> trim (s ++ [c]) <> [].
Proof.
  intros Hc. unfold trim, trimEnd. rewrite trimStart_snoc by exact Hc.
  rewrite rev_unit. cbn [trimStart]. rewrite Hc. cbn [rev].
  intros H. apply app_eq_nil in H as [_ H]. discriminate H.
Qed.

Lemma nonempty_lines_line s :
  newline ∉ s -> trim s <> [] -> nonempty_lines s = [s].
Proof.
  intros Hnl Hs. unfold nonempty_lines.
  rewrite split_newline_single by exact Hnl. cbn.
  destruct (trim s); [contradiction | reflexivity].
Qed.

(** X6: lines are split before fields are parsed, so a line break
    inside a quoted field ends the record: a quoted field holding the
    two lines a and b after a header yields two records, the first
    from the unterminated quote and the second from the rest, instead of
    one. *)
Theorem parseCSV_splits_quoted_line_break (header a b : jsstring) :
  newline ∉ header -> trim header <> [] ->
  newline ∉ a -> newline ∉ b ->
  nonempty_lines (header ++ newline :: dquote :: a ++ newline :: b ++ [dquote])
  = [header; dquote :: a; b ++ [dquote]]
  /\ parseCSV (header ++ newline :: dquote :: a ++ newline :: b ++ [dquote])
     = [make_record (parseCSVLine header) (dquote :: a);
        make_record (parseCSVLine header) (b ++ [dquote])].
Proof.
  intros Hh Hht Ha Hb.
  assert (Hlines :
    nonempty_lines (header ++ newline :: dquote :: a ++ newline :: b ++ [dquote])
    = [header; dquote :: a; b ++ [dquote]]).
  { change (dquote :: a ++ newline :: b ++ [dquote])
      with ((dquote :: a) ++ newline :: b ++ [dquote]).
    rewrite !nonempty_lines_break.
    rewrite (nonempty_lines_line header Hh Hht).
    rewrite (nonempty_lines_line (dquote :: a)).
    - rewrite (nonempty_lines_line (b ++ [dquote])); [reflexivity| |].
      + rewrite not_elem_of_app, not_elem_of_cons. split; [exact Hb|].
        split; [discriminate | apply not_elem_of_nil].
      + by apply trim_nonnil_last.
    - apply not_elem_of_cons. split; [discriminate | exact Ha].
    - by apply trim_nonnil_head. }
  split; [exact Hlines|].
  by rewrite (parseCSV_rows _ _ _ _ Hlines).
Qed.

Lemma parseCSV_splits_quoted_line_break_witness :
  nonempty_lines (str "nota" ++ newline :: dquote :: str "linha 1" ++ newline
                      :: str "linha 2" ++ [dquote])
  = [str "nota"; dquote :: str "linha 1"; str "linha 2" ++ [dquote]]
  /\ parseCSV (str "nota" ++ newline :: dquote :: str "linha 1" ++ newline
                   :: str "linha 2" ++ [dquote])
     = [make_record (parseCSVLine (str "nota")) (dquote :: str "linha 1");
        make_record (parseCSVLine (str "nota")) (str "linha 2" ++ [dquote])].
Proof.
  apply parseCSV_splits_quoted_line_break;
    [compute_done | discriminate | compute_done | compute_done].
Defined.

Lemma parseCSV_record_keys_witness :
  NoDup (keys [(str "a", str "2")])
  /\ (forall h, h ∈ keys [(str "a", str "2")]
                <-> h ∈ parseCSVLine (str "a,a") /\ h <> proto_key)
  /\ (forall r', r' ∈ parseCSV csv_duplicate_header
                 -> keys r' = keys [(str "a", str "2")]).
Proof.
  apply (parseCSV_record_keys csv_duplicate_header (str "a,a") (str "1,2") []).
  - reflexivity.
  - left.
Defined.

Lemma parseCSV_last_column_wins_witness :
  make_record (parseCSVLine (str "a,a")) (str "1,2")
    ∈ parseCSV csv_duplicate_header
  /\ obj_get (str "a") (make_record (parseCSVLine (str "a,a")) (str "1,2"))
     = Some (default [] (parseCSVLine (str "1,2") !! 1%nat)).
Proof.
  apply (parseCSV_last_column_wins csv_duplicate_header (str "a,a")
           (str "1,2") [] 1 (str "a") (str "1,2")).
  - reflexivity.
  - left.
  - reflexivity.
  - discriminate.
  - intros [|[|[|j]]] Hj; try lia; discriminate.
Defined.

End TextMore.

(** * Further properties of the two caches *)

Section CacheMore.

Variable api : DynamicData.api_config.
Variable sheets : RepositorioDinamico.config.
Variable env : browser.

Local Abbreviation lget := (DynamicData.LocalCache_get api env).
Local Abbreviation lset := (DynamicData.LocalCache_set env).
Local Abbreviation cget := (RepositorioDinamico.CacheManager_get sheets env).
Local Abbreviation cset := (RepositorioDinamico.CacheManager_set env).

(** The two [set] functions are the same statements. *)
Lemma CacheManager_set_LocalCache_set k d w : cset k d w = lset k d w.
Proof. reflexivity. Qed.

Lemma LocalCache_set_store k d w :
  storage_enabled env = true -> storage_full env = false ->
  lset k d w
  = World (<[prefix ++ k := CacheItem (dates env (ticks w)) d]> (localStorage w))
          (S (ticks w)) (requests w) (trace w).
Proof.
  intros Hen Hfull. unfold DynamicData.LocalCache_set, setItem.
  by rewrite Hen, Hfull.
Qed.

Lemma LocalCache_get_item k item w :
  storage_enabled env = true ->
  localStorage w !! (prefix ++ k) = Some item ->
  lget k w
  = if dates env (ticks w) - timestamp item <? DynamicData.CACHE_DURATION api
    then (data item, (Date_now env w).2)
    else (JNull, removeItem (prefix ++ k) (Date_now env w).2).
Proof.
  intros Hen Hitem. unfold DynamicData.LocalCache_get, getItem.
  by rewrite Hen, Hitem.
Qed.

Lemma CacheManager_get_item k item w :
  storage_enabled env = true ->
  localStorage w !! (prefix ++ k) = Some item ->
  cget k w
  = if dates env (ticks w) - timestamp item
       >? RepositorioDinamico.CACHE_DURATION sheets
    then (JNull, removeItem (prefix ++ k) (Date_now env w).2)
    else (data item, (Date_now env w).2).
Proof.
  intros Hen Hitem. unfold RepositorioDinamico.CacheManager_get, getItem.
  by rewrite Hen, Hitem.
Qed.

Lemma cache_get_absent k w :
  localStorage w !! (prefix ++ k) = None ->
  lget k w = (JNull, w) /\ cget k w = (JNull, w).
Proof.
  intros Hk.
  unfold DynamicData.LocalCache_get, RepositorioDinamico.CacheManager_get,
    getItem.
  rewrite Hk. by destruct (storage_enabled env).
Qed.

(** X7: in the CSV client a value written at one reading of the clock
    is returned by a read whose age is at most the cache duration, the
    duration itself included; an older one reads as null and is
    removed. *)
Theorem CacheManager_round_trip (k : jsstring) (v : json) (w : world) :
  storage_enabled env = true -> storage_full env = false ->
  (dates env (S (ticks w)) - dates env (ticks w)
   <= RepositorioDinamico.CACHE_DURATION sheets ->
   (cget k (cset k v w)).1 = v
   /\ localStorage (cget k (cset k v w)).2 !! (prefix ++ k)
      = Some (CacheItem (dates env (ticks w)) v))
  /\ (RepositorioDinamico.CACHE_DURATION sheets
      < dates env (S (ticks w)) - dates env (ticks w) ->
      (cget k (cset k v w)).1 = JNull
      /\ localStorage (cget k (cset k v w)).2 !! (prefix ++ k) = None).
Proof.
  intros Hen Hfull.
  rewrite CacheManager_set_LocalCache_set, (LocalCache_set_store _ _ _ Hen Hfull).
  rewrite (CacheManager_get_item k (CacheItem (dates env (ticks w)) v))
    by (try exact Hen; cbn; apply lookup_insert_eq).
  cbn [ticks timestamp data Date_now snd]. rewrite Z.gtb_ltb.
  split; intros Hage.
  - rewrite (proj2 (Z.ltb_ge _ _)) by lia. cbn.
    split; [reflexivity | apply lookup_insert_eq].
  - rewrite (proj2 (Z.ltb_lt _ _)) by lia. cbn.
    split; [reflexivity | apply lookup_delete_eq].
Qed.

(** X8: in the JSON client a second write under the same key replaces
    the first, and the age of the entry is counted from the second
    write: the read returns the second value as long as less than the
    cache duration has passed since then. *)
Theorem LocalCache_last_write_wins (k : jsstring) (v1 v2 : json) (w : world) :
  storage_enabled env = true -> storage_full env = false ->
  dates env (S (S (ticks w))) - dates env (S (ticks w))
  < DynamicData.CACHE_DURATION api ->
  (lget k (lset k v2 (lset k v1 w))).1 = v2
  /\ localStorage (lset k v2 (lset k v1 w)) !! (prefix ++ k)
     = Some (CacheItem (dates env (S (ticks w))) v2).
Proof.
  intros Hen Hfull Hage.
  rewrite !(LocalCache_set_store _ _ _ Hen Hfull).
  cbn [ticks localStorage].
  rewrite (LocalCache_get_item k (CacheItem (dates env (S (ticks w))) v2))
    by (try exact Hen; cbn; apply lookup_insert_eq).
  cbn [ticks timestamp data]. rewrite (proj2 (Z.ltb_lt _ _)) by lia.
  split; [reflexivity | apply lookup_insert_eq].
Qed.

(** X9: a write under one key leaves the entries of all other keys as
    they are, and a read of another key returns what it would return
    without the write. *)
Theorem LocalCache_set_other_key (k k' : jsstring) (v : json) (w : world) :
  k <> k' ->
  localStorage (lset k v w) !! (prefix ++ k') = localStorage w !! (prefix ++ k')
  /\ (lget k' (lset k v w)).1 = (lget k' (Date_now env w).2).1
  /\ (cget k' (lset k v w)).1 = (cget k' (Date_now env w).2).1.
Proof.
  intros Hk.
  assert (Hne : prefix ++ k <> prefix ++ k') by (intros H; by apply app_inv_head in H).
  assert (Hstore : localStorage (lset k v w) !! (prefix ++ k')
                   = localStorage w !! (prefix ++ k')).
  { unfold DynamicData.LocalCache_set, setItem. cbn.
    destruct (storage_enabled env && negb (storage_full env)); cbn; [|done].
    by rewrite lookup_insert_ne. }
  assert (Hticks : ticks (lset k v w) = S (ticks w)).
  { unfold DynamicData.LocalCache_set, setItem. cbn.
    by destruct (storage_enabled env && negb (storage_full env)). }
  split; [exact Hstore|].
  unfold DynamicData.LocalCache_get, RepositorioDinamico.CacheManager_get,
    getItem.
  rewrite Hstore. cbn [Date_now snd localStorage ticks].
  destruct (storage_enabled env); [|done].
  destruct (localStorage w !! (prefix ++ k')) as [item|]; [|done].
  rewrite Hticks. cbn.
  split; [by destruct (_ <? _) | by destruct (_ >? _)].
Qed.

(** ** clear *)

Lemma startsWith_app p s : startsWith p (p ++ s) = true.
Proof. induction p as [|c p IH]; [reflexivity|]. cbn. by rewrite N.eqb_refl. Qed.

Lemma foldl_removeItem ks : forall w,
  let w' := foldl (fun w' k => removeItem k w') w ks in
  (forall k, localStorage w' !! k
             = if decide (k ∈ ks) then None else localStorage w !! k)
  /\ ticks w' = ticks w /\ requests w' = requests w /\ trace w' = trace w.
Proof.
  induction ks as [|k0 ks IH]; intros w; cbn.
  - split; [|done]. intros k. by rewrite decide_False by apply not_elem_of_nil.
  - destruct (IH (removeItem k0 w)) as (Hlook & Ht & Hr & Htr). cbn in *.
    split; [|done]. intros k. rewrite Hlook.
    destruct (decide (k = k0)) as [->|Hne].
    + rewrite (decide_True (P := k0 ∈ k0 :: ks)) by left.
      destruct (decide _); [done | apply lookup_delete_eq].
    + rewrite lookup_delete_ne by done.
      destruct (decide (k ∈ ks)) as [Hin|Hout].
      * by rewrite decide_True by (by right).
      * rewrite decide_False; [done|].
        rewrite elem_of_cons. tauto.
Qed.

Lemma foldl_removeItem_if (P : jsstring -> bool) ks : forall w,
  foldl (fun w' k => if P k then removeItem k w' else w') w ks
  = foldl (fun w' k => removeItem k w') w (List.filter P ks).
Proof.
  induction ks as [|k ks IH]; intros w; cbn; [reflexivity|].
  destruct (P k); cbn; apply IH.
Qed.

(** X10: [LocalCache.clear] and [CacheManager.clear] have the same
    effect: every item whose key starts with [ceni_] is removed, whoever
    wrote it, and every other item stays; afterwards both caches read
    null for every key. *)
Theorem clear_removes_all_entries (w : world) :
  storage_enabled env = true ->
  CacheManager_clear env w = LocalCache_clear env w
  /\ (forall k, localStorage (LocalCache_clear env w) !! k
                = if startsWith prefix k then None else localStorage w !! k)
  /\ (forall key, lget key (LocalCache_clear env w)
                  = (JNull, LocalCache_clear env w)
                  /\ cget key (LocalCache_clear env w)
                     = (JNull, LocalCache_clear env w)).
Proof.
  intros Hen.
  unfold CacheManager_clear, LocalCache_clear, storage_keys. rewrite Hen.
  split; [apply foldl_removeItem_if|].
  set (ks := List.filter _ _).
  destruct (foldl_removeItem ks w) as (Hlook & _).
  assert (Hall : forall k, localStorage (foldl (fun w' k => removeItem k w') w ks) !! k
                           = if startsWith prefix k then None
                             else localStorage w !! k).
  { intros k. rewrite Hlook. subst ks.
    destruct (startsWith prefix k) eqn:Hp.
    - destruct (decide _) as [_|Hout]; [done|].
      destruct (localStorage w !! k) as [item|] eqn:Hk; [|done].
      exfalso. apply Hout. rewrite list_elem_of_In, filter_In.
      split; [|exact Hp]. rewrite <- list_elem_of_In.
      apply list_elem_of_fmap. exists (k, item). split; [done|].
      by apply elem_of_map_to_list.
    - destruct (decide _) as [Hin|_]; [|done].
      rewrite list_elem_of_In, filter_In in Hin. destruct Hin as [_ Hin].
      congruence. }
  split; [exact Hall|].
  intros key. apply cache_get_absent. rewrite Hall.
  unfold prefix at 1. by rewrite startsWith_app.
Qed.

End CacheMore.

(** * Further properties of the JSON client *)

Section ClientMore.
Import DynamicData.

Variable cfg : api_config.
Variable env : browser.
Variable JSON_stringify : object -> jsstring.
Variable query_toString : list (jsstring * jsstring) -> jsstring.
Variable endpoint : jsstring.
Variable params : object.

Local Abbreviation key := (cacheKey JSON_stringify endpoint params).
Local Abbreviation url := (request_url cfg query_toString endpoint params).
Local Abbreviation get := (LocalCache_get cfg env).
Local Abbreviation put := (LocalCache_set env).
Local Abbreviation floop :=
  (fetch_loop cfg env JSON_stringify query_toString).
Local Abbreviation run :=
  (fetch cfg env JSON_stringify query_toString endpoint params 1).

(** ** The shape of a run *)

Lemma fetch_loop_shape fuel : forall attempt w,
  (Z.to_nat (RETRY_ATTEMPTS cfg - attempt) < fuel)%nat ->
  truthy (get key w).1 = false ->
  exists out w' k,
    floop fuel endpoint params attempt w = Some (out, w')
    /\ attempt + Z.of_nat k <= Z.max attempt (RETRY_ATTEMPTS cfg)
    /\ trace w'
       = trace w ++ failed_attempts url (RETRY_DELAY cfg) attempt k
                 ++ [EvRequest url]
    /\ (forall i, (i < k)%nat ->
                  exists e, read_payload (net env (requests w + i)) = inl e)
    /\ match out with
       | Resolved v => read_payload (net env (requests w + k)) = inr v
       | Rejected e =>
           read_payload (net env (requests w + k)) = inl e
           /\ RETRY_ATTEMPTS cfg <= attempt + Z.of_nat k
       end.
Proof.
  induction fuel as [|fuel IH]; intros attempt w Hfuel Hmiss; [lia|].
  pose proof (LocalCache_get_events cfg env key w) as [Htr Hreq].
  destruct (read_payload (net env (requests w))) as [e|d] eqn:Hr.
  - destruct (Z.lt_ge_cases attempt (RETRY_ATTEMPTS cfg)) as [Hlt|Hge].
    + rewrite (fetch_loop_retry cfg env JSON_stringify query_toString
                 endpoint params _ _ _ e Hmiss Hr Hlt).
      pose proof (misses_after_retry cfg env JSON_stringify query_toString
                    endpoint params w
                    (RETRY_DELAY cfg * 2 ^ (attempt - 1)) Hmiss) as Hmiss'.
      set (w'' := sleep _ _) in *.
      assert (Htr'' : trace w'' = trace w ++ [EvRequest url;
                        EvDelay (RETRY_DELAY cfg * 2 ^ (attempt - 1))]).
      { subst w''. cbn. rewrite Htr, <- app_assoc. reflexivity. }
      assert (Hreq'' : requests w'' = S (requests w)).
      { subst w''. cbn. by rewrite Hreq. }
      destruct (IH (attempt + 1) w'' ltac:(lia) Hmiss')
        as (out & w' & k & Hrun & Hb & Htr' & Hf & Hout).
      exists out, w', (S k). split; [exact Hrun|]. split; [lia|]. split.
      { rewrite Htr', Htr''. cbn [failed_attempts].
        rewrite <- !app_assoc. reflexivity. }
      split.
      { intros [|i] Hi.
        - exists e. by rewrite Nat.add_0_r.
        - destruct (Hf i ltac:(lia)) as [e' He']. exists e'.
          by replace (requests w + S i)%nat with (requests w'' + i)%nat by lia. }
      replace (requests w + S k)%nat with (requests w'' + k)%nat by lia.
      destruct out as [v|e']; [exact Hout|].
      destruct Hout as [He' Hn]. split; [exact He' | lia].
    + rewrite (fetch_loop_give_up cfg env JSON_stringify query_toString
                 endpoint params _ _ _ e Hmiss Hr Hge).
      eexists (Rejected e), _, 0%nat. split; [reflexivity|].
      split; [lia|]. split; [cbn; by rewrite Htr|].
      split; [intros i Hi; lia|].
      rewrite Nat.add_0_r. split; [exact Hr | lia].
  - rewrite (fetch_loop_success cfg env JSON_stringify query_toString
               endpoint params _ _ _ d Hmiss Hr).
    eexists (Resolved d), _, 0%nat. split; [reflexivity|].
    split; [lia|]. split.
    { rewrite (proj1 (LocalCache_set_events _ _ _ _)). cbn. by rewrite Htr. }
    split; [intros i Hi; lia|].
    by rewrite Nat.add_0_r.
Qed.

(** X11: every call of [fetch] settles, in one of two ways.  Either the
    cache read returns a truthy value, which is the result, and nothing
    is requested.  Or some number k of attempts fail and are retried,
    each followed by its delay, then one more request settles the call:
    with its payload when it succeeds, with its error when it fails and
    was the last attempt allowed. *)
Theorem fetch_run_shape (w : world) :
  exists out w',
    run w = Some (out, w')
    /\ ((truthy (get key w).1 = true
         /\ out = Resolved (get key w).1
         /\ trace w' = trace w /\ requests w' = requests w)
        \/ (truthy (get key w).1 = false
            /\ exists k,
                Z.of_nat k < Z.max 1 (RETRY_ATTEMPTS cfg)
                /\ trace w'
                   = trace w ++ failed_attempts url (RETRY_DELAY cfg) 1 k
                             ++ [EvRequest url]
                /\ (forall i, (i < k)%nat ->
                      exists e, read_payload (net env (requests w + i)) = inl e)
                /\ match out with
                   | Resolved v =>
                       read_payload (net env (requests w + k)) = inr v
                   | Rejected e =>
                       read_payload (net env (requests w + k)) = inl e
                       /\ Z.of_nat k = Z.max 1 (RETRY_ATTEMPTS cfg) - 1
                   end)).
Proof.
  destruct (truthy (get key w).1) eqn:Hc.
  - unfold fetch. rewrite (fetch_loop_hit cfg env JSON_stringify query_toString
                             endpoint params _ _ _ Hc).
    eexists _, _. split; [reflexivity|]. left.
    pose proof (LocalCache_get_events cfg env key w) as [Htr Hreq]. done.
  - destruct (fetch_loop_shape _ 1 w (Nat.lt_succ_diag_r _) Hc)
      as (out & w' & k & Hrun & Hb & Htr & Hf & Hout).
    exists out, w'. split; [exact Hrun|]. right. split; [reflexivity|].
    exists k. split; [lia|]. split; [exact Htr|]. split; [exact Hf|].
    destruct out as [v|e]; [exact Hout|].
    destruct Hout as [He Hn]. split; [exact He | lia].
Qed.

(** ** Bounds *)

Lemma total_delay_failed_attempts u d attempt k :
  1 <= attempt ->
  total_delay (failed_attempts u d attempt k ++ [EvRequest u])
  = d * 2 ^ (attempt - 1) * (2 ^ Z.of_nat k - 1).
Proof.
  unfold total_delay. revert attempt.
  induction k as [|k IH]; intros attempt Ha.
  - cbn. lia.
  - cbn [failed_attempts app delays foldr]. rewrite IH by lia.
    replace (attempt + 1 - 1) with (Z.succ (attempt - 1)) by lia.
    rewrite Nat2Z.inj_succ, !Z.pow_succ_r by lia. ring.
Qed.

(** X12: with a base delay that is not negative, a call of [fetch] makes
    at most max(1, RETRY_ATTEMPTS) requests and waits at most
    RETRY_DELAY * (2^(max(1, RETRY_ATTEMPTS) - 1) - 1) in all, whatever
    the network answers. *)
Theorem fetch_request_and_delay_bounds (w : world) :
  0 <= RETRY_DELAY cfg ->
  exists out w',
    run w = Some (out, w')
    /\ (count_requests (drop (length (trace w)) (trace w'))
        <= Z.to_nat (Z.max 1 (RETRY_ATTEMPTS cfg)))%nat
    /\ 0 <= total_delay (drop (length (trace w)) (trace w'))
       <= RETRY_DELAY cfg * (2 ^ (Z.max 1 (RETRY_ATTEMPTS cfg) - 1) - 1).
Proof.
  intros Hd.
  assert (Hpow : forall n, 0 <= n -> 1 <= 2 ^ n).
  { intros n Hn. change 1 with (2 ^ 0). apply Z.pow_le_mono_r; lia. }
  destruct (fetch_run_shape w) as (out & w' & Hrun & Hshape).
  exists out, w'. split; [exact Hrun|].
  destruct Hshape as [(_ & _ & Htr & _)|(_ & k & Hk & Htr & _)].
  - rewrite Htr, drop_all. cbn. split; [lia|].
    pose proof (Hpow (Z.max 1 (RETRY_ATTEMPTS cfg) - 1) ltac:(lia)). nia.
  - rewrite Htr, drop_app_length, count_requests_failed_attempts.
    rewrite total_delay_failed_attempts by lia.
    change (2 ^ (1 - 1)) with 1. rewrite Z.mul_1_r.
    split; [lia|].
    pose proof (Hpow (Z.of_nat k) ltac:(lia)).
    assert (2 ^ Z.of_nat k <= 2 ^ (Z.max 1 (RETRY_ATTEMPTS cfg) - 1))
      by (apply Z.pow_le_mono_r; lia).
    nia.
Qed.

(** ** What a run does to the storage *)

Lemma fetch_loop_store (R : world -> world -> Prop) :
  (forall w, R w w) ->
  (forall w1 w2 w3, R w1 w2 -> R w2 w3 -> R w1 w3) ->
  (forall w, R w (get key w).2) ->
  (forall d w, R w (put key d w)) ->
  (forall u w, R w (http_get env u w).2) ->
  (forall ms w, R w (sleep ms w)) ->
  forall fuel attempt w out w',
    floop fuel endpoint params attempt w = Some (out, w') -> R w w'.
Proof.
  intros Hrefl Htrans Hget Hput Hhttp Hsleep.
  induction fuel as [|fuel IH]; intros attempt w out w' Hrun; [discriminate|].
  cbn [fetch_loop] in Hrun.
  pose proof (Hget w) as Hg.
  destruct (get key w) as [cached w1]. cbn [snd] in Hg.
  destruct (truthy cached).
  - injection Hrun as <- <-. exact Hg.
  - pose proof (Hhttp url w1) as Hh. cbn [http_get fst snd] in Hrun, Hh.
    destruct (read_payload (net env (requests w1))) as [e|d].
    + destruct (attempt <? RETRY_ATTEMPTS cfg).
      * apply IH in Hrun. eauto.
      * injection Hrun as <- <-. eauto.
    + injection Hrun as <- <-. eauto.
Qed.

(** A run that rejects has not written to the storage. *)
Lemma fetch_loop_rejected_store fuel : forall attempt w e w',
  floop fuel endpoint params attempt w = Some (Rejected e, w') ->
  localStorage w' !! (prefix ++ key) = None
  \/ localStorage w' !! (prefix ++ key) = localStorage w !! (prefix ++ key).
Proof.
  assert (Hget : forall w,
    localStorage (get key w).2 !! (prefix ++ key) = None
    \/ localStorage (get key w).2 !! (prefix ++ key)
       = localStorage w !! (prefix ++ key)).
  { intros w. unfold LocalCache_get, getItem.
    destruct (storage_enabled env); [|by right].
    destruct (localStorage w !! (prefix ++ key)) as [item|] eqn:Hk; [|by left].
    cbn. destruct (_ <? _); cbn; [by right | left; apply lookup_delete_eq]. }
  induction fuel as [|fuel IH]; intros attempt w e w' Hrun; [discriminate|].
  cbn [fetch_loop] in Hrun.
  pose proof (Hget w) as Hg.
  destruct (get key w) as [cached w1]. cbn [snd] in Hg.
  destruct (truthy cached); [discriminate|].
  cbn [http_get fst snd] in Hrun.
  destruct (read_payload (net env (requests w1))) as [e'|d]; [|discriminate].
  destruct (attempt <? RETRY_ATTEMPTS cfg).
  - apply IH in Hrun. cbn in Hrun.
    destruct Hrun as [H|H]; [by left|]. rewrite H. exact Hg.
  - injection Hrun as <- <-. exact Hg.
Qed.

(** X13: a call of [fetch] changes no item of the storage other than
    the one of its own cache key, and a call that rejects has written
    nothing: its own item is as before or removed. *)
Theorem fetch_touches_only_its_key (w : world) (out : outcome) (w' : world) :
  run w = Some (out, w') ->
  (forall k', k' <> prefix ++ key ->
              localStorage w' !! k' = localStorage w !! k')
  /\ (forall e, out = Rejected e ->
        localStorage w' !! (prefix ++ key) = None
        \/ localStorage w' !! (prefix ++ key)
           = localStorage w !! (prefix ++ key)).
Proof.
  intros Hrun. split.
  - revert Hrun. unfold fetch.
    apply (fetch_loop_store
             (fun w w' => forall k', k' <> prefix ++ key ->
                localStorage w' !! k' = localStorage w !! k')).
    + done.
    + intros w1 w2 w3 H12 H23 k' Hk'. by rewrite H23, H12.
    + intros w0 k' Hk'. unfold LocalCache_get, getItem.
      destruct (storage_enabled env); [|done].
      destruct (localStorage w0 !! (prefix ++ key)); [|done].
      cbn. destruct (_ <? _); cbn; [done|]. by rewrite lookup_delete_ne.
    + intros d w0 k' Hk'. unfold LocalCache_set, setItem. cbn.
      destruct (storage_enabled env && negb (storage_full env)); cbn; [|done].
      by rewrite lookup_insert_ne.
    + done.
    + done.
  - intros e ->. eapply fetch_loop_rejected_store. exact Hrun.
Qed.

(** X14: when the page cannot use the storage the client works without
    a cache: every call issues a request, and the storage is left as it
    is. *)
Theorem fetch_without_storage (w : world) :
  storage_enabled env = false ->
  exists out w' rest,
    run w = Some (out, w')
    /\ trace w' = trace w ++ EvRequest url :: rest
    /\ localStorage w' = localStorage w.
Proof.
  intros Hoff.
  assert (Hmiss : truthy (get key w).1 = false).
  { unfold LocalCache_get, getItem. by rewrite Hoff. }
  destruct (fetch_loop_miss_requests cfg env JSON_stringify query_toString
              endpoint params _ 1 w (Nat.lt_succ_diag_r _) Hmiss)
    as (out & w' & rest & Hrun & Htr).
  exists out, w', rest. split; [exact Hrun|]. split; [exact Htr|].
  revert Hrun.
  apply (fetch_loop_store (fun w w' => localStorage w' = localStorage w)).
  - done.
  - intros w1 w2 w3 H12 H23. by rewrite H23.
  - intros w0. unfold LocalCache_get, getItem. by rewrite Hoff.
  - intros d w0. unfold LocalCache_set, setItem. by rewrite Hoff.
  - done.
  - done.
Qed.

(** X15: a first attempt that succeeds after a miss stores the payload
    under the cache key with the time of the write, after one request
    and no delay; a later call whose cache read comes less than the
    cache duration after that write resolves with the same payload, if it
    is truthy, without any request. *)
Theorem fetch_then_cached (w : world) (d : json) :
  storage_enabled env = true -> storage_full env = false ->
  truthy (get key w).1 = false ->
  read_payload (net env (requests w)) = inr d ->
  exists w1,
    run w = Some (Resolved d, w1)
    /\ trace w1 = trace w ++ [EvRequest url]
    /\ localStorage w1 !! (prefix ++ key)
       = Some (CacheItem (dates env (ticks (get key w).2)) d)
    /\ (truthy d = true ->
        dates env (ticks w1) - dates env (ticks (get key w).2)
        < CACHE_DURATION cfg ->
        exists w2,
          run w1 = Some (Resolved d, w2)
          /\ trace w2 = trace w1 /\ requests w2 = requests w1).
Proof.
  intros Hen Hfull Hmiss Hd.
  pose proof (LocalCache_get_events cfg env key w) as [Htr Hreq].
  eexists. split.
  { unfold fetch. by apply fetch_loop_success. }
  rewrite (LocalCache_set_store _ _ _ _ Hen Hfull).
  cbn [trace localStorage ticks http_get snd].
  split; [by rewrite Htr|]. split; [apply lookup_insert_eq|].
  intros Hv Hage.
  set (w1 := World _ _ _ _) in *.
  assert (Hget : get key w1 = (d, (Date_now env w1).2)).
  { rewrite (LocalCache_get_item cfg env key
               (CacheItem (dates env (ticks (get key w).2)) d))
      by (try exact Hen; subst w1; cbn; apply lookup_insert_eq).
    cbn [timestamp data]. by rewrite (proj2 (Z.ltb_lt _ _)) by exact Hage. }
  eexists. split.
  { unfold fetch. rewrite fetch_loop_hit; rewrite Hget; [reflexivity|exact Hv]. }
  done.
Qed.

(** ** The query string *)

(** X16: the query of a request has exactly one [action] pair, whose
    value is the endpoint, even when the caller passes its own [action];
    the other pairs are those of the caller, in their order. *)
Theorem query_set_single (name value : jsstring)
        (q : list (jsstring * jsstring)) :
  List.filter (fun kv => key_eqb kv.1 name) (query_set name value q)
  = [(name, value)]
  /\ List.filter (fun kv => negb (key_eqb kv.1 name)) (query_set name value q)
     = List.filter (fun kv => negb (key_eqb kv.1 name)) q.
Proof.
  assert (Hself : key_eqb name name = true) by (by apply bool_decide_eq_true_2).
  assert (Hnone : forall l : list (jsstring * jsstring),
    List.filter (fun kv => key_eqb kv.1 name)
                (List.filter (fun kv => negb (key_eqb kv.1 name)) l) = []).
  { induction l as [|[k v] l IH]; [reflexivity|]. cbn.
    destruct (key_eqb k name) eqn:Hk; cbn; [exact IH|]. by rewrite Hk. }
  assert (Hidem : forall l : list (jsstring * jsstring),
    List.filter (fun kv => negb (key_eqb kv.1 name))
                (List.filter (fun kv => negb (key_eqb kv.1 name)) l)
    = List.filter (fun kv => negb (key_eqb kv.1 name)) l).
  { induction l as [|[k v] l IH]; [reflexivity|]. cbn.
    destruct (key_eqb k name) eqn:Hk; cbn; [exact IH|].
    by rewrite Hk, IH. }
  induction q as [|[k v] q [IH1 IH2]]; cbn.
  - by rewrite Hself.
  - destruct (key_eqb k name) eqn:Hk; cbn; rewrite Hk; cbn.
    + apply bool_decide_eq_true in Hk. subst k.
      by rewrite Hnone, Hidem.
    + by rewrite IH1, IH2.
Qed.

(** ** What a call can resolve with *)

Lemma read_payload_success r v :
  read_payload r = inr v
  <-> exists resp,
        r = Replied resp /\ ok resp = true /\ body_json resp = Some v
        /\ v <> JNull
        /\ forall e, get_prop (str "error") v = Some e -> truthy e = false.
Proof.
  split.
  - destruct r as [reason|resp]; cbn; [discriminate|].
    destruct (ok resp) eqn:Hok; cbn; [|discriminate].
    destruct (body_json resp) as [d|] eqn:Hbody; [|discriminate].
    intros H. exists resp.
    assert (Hd : d <> JNull /\ match get_prop (str "error") d with
                               | Some e => if truthy e then inl (PayloadError e)
                                           else inr d
                               | None => inr d
                               end = (inr v : error + json)).
    { destruct d; try (split; [discriminate | exact H]). discriminate H. }
    destruct Hd as [Hnn Hd].
    destruct (get_prop (str "error") d) as [e|] eqn:He.
    + destruct (truthy e) eqn:Hte; [discriminate|]. injection Hd as <-.
      repeat split; try done. intros e' He'. congruence.
    + injection Hd as <-. repeat split; try done. intros e' He'. congruence.
  - intros (resp & -> & Hok & Hbody & Hnn & Herr). cbn.
    rewrite Hok, Hbody. cbn.
    destruct (get_prop (str "error") v) as [e|] eqn:He.
    + rewrite (Herr e eq_refl). by destruct v.
    + by destruct v.
Qed.

(** X23: the value that a call resolves with after a miss is the body of
    a reply with a success status; it is not null, and its [error]
    property, if it has one, is falsy. *)
Theorem fetch_resolved_value (w : world) (v : json) (w' : world) :
  run w = Some (Resolved v, w') ->
  truthy (get key w).1 = false ->
  v <> JNull
  /\ (forall e, get_prop (str "error") v = Some e -> truthy e = false)
  /\ exists k resp,
      (requests w + k < requests w')%nat
      /\ net env (requests w + k) = Replied resp
      /\ ok resp = true /\ body_json resp = Some v.
Proof.
  intros Hrun Hmiss.
  assert (Hreqs : forall u d a k t,
    count_requests (t ++ failed_attempts u d a k ++ [EvRequest u])
    = (count_requests t + S k)%nat).
  { intros u d a k t. unfold count_requests.
    rewrite List.filter_app, length_app.
    fold (count_requests (failed_attempts u d a k ++ [EvRequest u])).
    by rewrite count_requests_failed_attempts. }
  destruct (fetch_loop_shape _ 1 w (Nat.lt_succ_diag_r _) Hmiss)
    as (out & w1 & k & Hrun' & _ & Htr & _ & Hout).
  unfold fetch in Hrun. rewrite Hrun in Hrun'. injection Hrun' as <- <-.
  apply read_payload_success in Hout
    as (resp & Hnet & Hok & Hbody & Hnn & Herr).
  split; [exact Hnn|]. split; [exact Herr|].
  exists k, resp. split; [|done].
  assert (Hcount : forall fuel attempt w0 out0 w0',
    floop fuel endpoint params attempt w0 = Some (out0, w0') ->
    (requests w0' - requests w0 = count_requests (trace w0')
                                  - count_requests (trace w0))%nat
    /\ (requests w0 <= requests w0')%nat
    /\ (count_requests (trace w0) <= count_requests (trace w0'))%nat).
  { apply (fetch_loop_store
             (fun w0 w0' =>
                (requests w0' - requests w0
                 = count_requests (trace w0') - count_requests (trace w0))%nat
                /\ (requests w0 <= requests w0')%nat
                /\ (count_requests (trace w0)
                    <= count_requests (trace w0'))%nat)).
    - intros w0. lia.
    - intros w1' w2' w3'. lia.
    - intros w0. destruct (LocalCache_get_events cfg env key w0) as [-> ->]. lia.
    - intros d w0.
      destruct (LocalCache_set_events env key d w0) as [-> ->]. lia.
    - intros u w0. cbn. unfold count_requests.
      rewrite List.filter_app, length_app. cbn. lia.
    - intros ms w0. cbn. unfold count_requests.
      rewrite List.filter_app, length_app. cbn. lia. }
  destruct (Hcount _ _ _ _ _ Hrun) as (Hdiff & Hle & _).
  rewrite Htr, Hreqs in Hdiff. lia.
Qed.

End ClientMore.

(** * Further properties of the CSV client *)

Section SheetsMore.
Import RepositorioDinamico.

Variable cfg : config.
Variable env : browser.

Local Abbreviation cget := (CacheManager_get cfg env).
Local Abbreviation cset := (CacheManager_set env).

(** ** A text made of whitespace has no records *)

Lemma trimStart_nil_iff s : trimStart s = [] <-> Forall (fun c => is_space c = true) s.
Proof.
  induction s as [|c s IH]; cbn.
  - split; [constructor | reflexivity].
  - destruct (is_space c) eqn:Hc.
    + rewrite IH. split; [by constructor | by inversion 1].
    + split; [discriminate | inversion 1; congruence].
Qed.

Lemma trim_nil_iff s : trim s = [] <-> Forall (fun c => is_space c = true) s.
Proof.
  rewrite <- trimStart_nil_iff. unfold trim, trimEnd. split.
  - destruct (trimStart s) as [|d x] eqn:Hx; [reflexivity|].
    assert (Hd : is_space d = false)
      by (apply (trimStart_head s); by rewrite Hx).
    cbn [rev]. rewrite trimStart_snoc by exact Hd. rewrite rev_unit.
    discriminate.
  - by intros ->.
Qed.

Lemma split_newline_chars s piece c :
  piece ∈ split_newline s -> c ∈ piece -> c ∈ s.
Proof.
  revert piece. induction s as [|d s IH]; intros piece; cbn.
  - rewrite list_elem_of_singleton. intros ->. by intros ?%elem_of_nil.
  - destruct (d =? newline)%N.
    + rewrite elem_of_cons. intros [->|Hp] Hc.
      * by apply elem_of_nil in Hc.
      * right. by apply (IH piece).
    + pose proof (split_newline_nonnil s) as Hnn.
      destruct (split_newline s) as [|p ps]; [contradiction|].
      rewrite elem_of_cons. intros [->|Hp] Hc.
      * apply elem_of_cons in Hc as [->|Hc]; [left|].
        right. apply (IH p); [left | exact Hc].
      * right. apply (IH piece); [by right | exact Hc].
Qed.

Lemma parseCSV_blank csvText : trim csvText = [] -> parseCSV csvText = [].
Proof.
  intros Hb. apply trim_nil_iff in Hb.
  assert (Hlines : nonempty_lines csvText = []).
  { unfold nonempty_lines.
    assert (Hall : Forall (fun line => trim line = []) (split_newline csvText)).
    { apply Forall_forall. intros line Hline.
      apply trim_nil_iff, Forall_forall. intros c Hc.
      rewrite Forall_forall in Hb. apply Hb.
      by apply (split_newline_chars csvText line). }
    induction Hall as [|line lines Hline _ IH]; [reflexivity|].
    cbn. rewrite Hline. exact IH. }
  unfold parseCSV. by rewrite Hlines.
Qed.

(** ** A miss is followed by a miss *)

Lemma CacheManager_get_miss_cold k w :
  truthy (cget k w).1 = false -> cold env (prefix ++ k) (cget k w).2.
Proof.
  unfold CacheManager_get, getItem, cold.
  destruct (storage_enabled env); [|done].
  destruct (localStorage w !! (prefix ++ k)) as [item|] eqn:Hk.
  - cbn. destruct (_ >? _); cbn.
    + intros _ _ item'. by rewrite lookup_delete_eq.
    + intros Hv _ item' Hitem'. congruence.
  - cbn. intros _ _ item'. by rewrite Hk.
Qed.

Lemma cold_CacheManager_get k w :
  cold env (prefix ++ k) w -> truthy (cget k w).1 = false.
Proof.
  intros Hcold. unfold CacheManager_get, getItem, cold in *.
  destruct (storage_enabled env); [|done].
  destruct (localStorage w !! (prefix ++ k)) as [item|] eqn:Hk; [|done].
  cbn. destruct (_ >? _); cbn; [done | by apply Hcold].
Qed.

Lemma CacheManager_get_miss_again k u w :
  truthy (cget k w).1 = false ->
  truthy (cget k (http_get env u (cget k w).2).2).1 = false.
Proof.
  intros Hmiss. apply cold_CacheManager_get.
  exact (CacheManager_get_miss_cold k w Hmiss).
Qed.

(** ** The result of a request *)

(** X17: whatever the network answers, a call of [fetchSheet] issues at
    most one request and awaits no delay.  After a miss, a reply with a
    success status and a body resolves with exactly the records that
    [parseCSV] finds in the body, none for a blank or header-only body;
    the result is written to the cache only when it has a record. *)
Theorem fetchSheet_single_request (gid : jsstring) (w : world) :
  (truthy (cget gid w).1 = true
   /\ fetchSheet cfg env gid w = (Resolved (cget gid w).1, (cget gid w).2)
   /\ trace (fetchSheet cfg env gid w).2 = trace w)
  \/ (truthy (cget gid w).1 = false
      /\ trace (fetchSheet cfg env gid w).2
         = trace w ++ [EvRequest (sheet_url cfg gid)]
      /\ forall resp csvText,
          net env (requests w) = Replied resp -> ok resp = true ->
          body_text resp = Some csvText ->
          fetchSheet cfg env gid w
          = (Resolved (records_json (parseCSV csvText)),
             if (length (parseCSV csvText) =? 0)%nat
             then (http_get env (sheet_url cfg gid) (cget gid w).2).2
             else cset gid (records_json (parseCSV csvText))
                       (http_get env (sheet_url cfg gid) (cget gid w).2).2)).
Proof.
  pose proof (CacheManager_get_events cfg env gid w) as [Htr Hreq].
  unfold fetchSheet.
  destruct (cget gid w) as [cached w1]. cbn [fst snd] in *.
  destruct (truthy cached) eqn:Hc; [left; done|].
  right. split; [reflexivity|]. cbn [http_get fst snd]. rewrite Hreq. split.
  - destruct (net env (requests w)) as [reason|resp]; cbn; [by rewrite Htr|].
    destruct (ok resp); cbn; [|by rewrite Htr].
    destruct (body_text resp) as [csvText|]; cbn; [|by rewrite Htr].
    destruct (_ || _); cbn; [by rewrite Htr|].
    destruct (length (parseCSV csvText) =? 0)%nat; cbn; [by rewrite Htr|].
    unfold CacheManager_set, setItem. cbn.
    destruct (storage_enabled env && negb (storage_full env)); cbn;
      by rewrite Htr.
  - intros resp csvText -> Hok Hbody. rewrite Hok, Hbody. cbn [negb].
    destruct ((length csvText =? 0)%nat || (length (trim csvText) =? 0)%nat)
      eqn:Hblank; [|by destruct (parseCSV csvText)].
    assert (Hnone : parseCSV csvText = []).
    { apply parseCSV_blank. apply orb_true_iff in Hblank as [H|H].
      - apply Nat.eqb_eq in H. by destruct csvText.
      - apply Nat.eqb_eq in H. by destruct (trim csvText). }
    by rewrite Hnone.
Qed.

(** X18: records fetched after a miss are served from the cache by a
    later call whose cache read comes at most the cache duration after
    the write, without any request; an empty result was not stored, and
    the later call asks the network again. *)
Theorem fetchSheet_then_cached (gid : jsstring) (w : world)
        (resp : response) (csvText : jsstring) :
  storage_enabled env = true -> storage_full env = false ->
  truthy (cget gid w).1 = false ->
  net env (requests w) = Replied resp -> ok resp = true ->
  body_text resp = Some csvText ->
  (parseCSV csvText <> [] ->
   dates env (S (ticks (cget gid w).2)) - dates env (ticks (cget gid w).2)
   <= CACHE_DURATION cfg ->
   fetchSheet cfg env gid (fetchSheet cfg env gid w).2
   = (Resolved (records_json (parseCSV csvText)),
      (Date_now env (fetchSheet cfg env gid w).2).2))
  /\ (parseCSV csvText = [] ->
      trace (fetchSheet cfg env gid (fetchSheet cfg env gid w).2).2
      = trace w ++ [EvRequest (sheet_url cfg gid);
                    EvRequest (sheet_url cfg gid)]).
Proof.
  intros Hen Hfull Hmiss Hnet Hok Hbody.
  destruct (fetchSheet_single_request gid w)
    as [(Hhit & _)|(_ & Htr1 & Hres)]; [congruence|].
  specialize (Hres resp csvText Hnet Hok Hbody).
  split.
  - intros Hsome Hage. rewrite Hres. cbn [snd].
    destruct (parseCSV csvText) as [|r rs] eqn:Hp; [contradiction|].
    cbn [length Nat.eqb].
    rewrite CacheManager_set_LocalCache_set.
    rewrite (LocalCache_set_store _ _ _ _ Hen Hfull).
    cbn [http_get snd ticks localStorage requests trace].
    set (w1 := World _ _ _ _).
    assert (Hget : cget gid w1
                   = (records_json (r :: rs), (Date_now env w1).2)).
    { rewrite (CacheManager_get_item cfg env gid
                 (CacheItem (dates env (ticks (cget gid w).2))
                            (records_json (r :: rs))))
        by (try exact Hen; subst w1; cbn; apply lookup_insert_eq).
      cbn [timestamp data]. subst w1. cbn [ticks].
      rewrite Z.gtb_ltb. by rewrite (proj2 (Z.ltb_ge _ _)) by lia. }
    unfold fetchSheet at 1. rewrite Hget. reflexivity.
  - intros Hnone.
    destruct (fetchSheet_single_request gid (fetchSheet cfg env gid w).2)
      as [(Hhit & _)|(_ & Htr2 & _)].
    + exfalso. rewrite Hres, Hnone in Hhit. cbn [length Nat.eqb snd] in Hhit.
      rewrite CacheManager_get_miss_again in Hhit by exact Hmiss.
      discriminate Hhit.
    + by rewrite Htr2, Htr1, <- app_assoc.
Qed.

End SheetsMore.

(** * The Apps Script variant *)

Section SplitFacts.

Lemma split_char_no_sep sep s : sep ∉ s -> split_char sep s = [s].
Proof.
  induction s as [|c s IH]; intros Hs; [reflexivity|].
  apply not_elem_of_cons in Hs as [Hc Hs]. cbn.
  destruct (N.eqb_spec c sep) as [->|_]; [contradiction|].
  by rewrite IH.
Qed.

Lemma split_char_nonnil sep s : split_char sep s <> [].
Proof.
  induction s as [|c s IH]; cbn; [discriminate|].
  destruct (c =? sep)%N; [discriminate|].
  by destruct (split_char sep s).
Qed.

Lemma split_char_break sep s t :
  sep ∉ s -> split_char sep (s ++ sep :: t) = s :: split_char sep t.
Proof.
  induction s as [|c s IH]; intros Hs; cbn.
  - by rewrite N.eqb_refl.
  - apply not_elem_of_cons in Hs as [Hc Hs].
    destruct (N.eqb_spec c sep) as [->|_]; [contradiction|].
    by rewrite IH.
Qed.

Lemma split_char_length sep s :
  length (split_char sep s) = S (count_char sep s).
Proof.
  induction s as [|c s IH]; [reflexivity|].
  rewrite count_char_cons. cbn. rewrite (N.eqb_sym sep c).
  destruct (c =? sep)%N; cbn; [by rewrite IH|].
  pose proof (split_char_nonnil sep s) as Hnn.
  destruct (split_char sep s); [contradiction|]. cbn in *. lia.
Qed.

Lemma split_char_pieces sep s piece :
  piece ∈ split_char sep s -> sep ∉ piece.
Proof.
  revert piece. induction s as [|c s IH]; intros piece; cbn.
  - rewrite list_elem_of_singleton. intros ->. apply not_elem_of_nil.
  - destruct (N.eqb_spec c sep) as [->|Hc].
    + rewrite elem_of_cons. intros [->|Hp]; [apply not_elem_of_nil | by apply IH].
    + pose proof (split_char_nonnil sep s) as Hnn.
      destruct (split_char sep s) as [|p ps]; [contradiction|].
      rewrite elem_of_cons. intros [->|Hp].
      * apply not_elem_of_cons. split; [congruence|]. apply IH. left.
      * apply IH. by right.
Qed.

Lemma filter_eqb_absent (c : char) (s : jsstring) :
  c ∉ s -> List.filter (N.eqb c) s = [].
Proof.
  induction s as [|d s IH]; intros Hs; [reflexivity|].
  apply not_elem_of_cons in Hs as [Hd Hs]. cbn [List.filter].
  destruct (N.eqb_spec c d) as [Heq|_]; [congruence | by apply IH].
Qed.

(** The line split of the CSV parser is this split. *)
Lemma split_newline_split_char s : split_newline s = split_char newline s.
Proof. induction s as [|c s IH]; [reflexivity|]. cbn. by rewrite IH. Qed.

End SplitFacts.

Section AppsScriptFacts.
Import AppsScript.

Variable cfg : config.
Variable env : browser.

Local Abbreviation hyphen := 45%N.

Lemma formatarData_three (ano mes dia : jsstring) :
  split_char hyphen (ano ++ hyphen :: mes ++ hyphen :: dia) = [ano; mes; dia] ->
  formatarData (JString (ano ++ hyphen :: mes ++ hyphen :: dia))
  = JString (dia ++ str "/" ++ mes ++ str "/" ++ ano).
Proof.
  intros Hsplit. unfold formatarData. rewrite Hsplit.
  by destruct ano.
Qed.

(** X19: [formatarData] turns a text of three parts separated by two
    hyphens, such as an ISO date, into the parts in reverse order
    separated by slashes, leaves every other text as it is, and applied
    to its own result changes nothing. *)
Theorem formatarData_spec (d : json) :
  formatarData (formatarData d) = formatarData d
  /\ (forall ano mes dia,
        d = JString (ano ++ hyphen :: mes ++ hyphen :: dia) ->
        hyphen ∉ ano -> hyphen ∉ mes -> hyphen ∉ dia ->
        formatarData d = JString (dia ++ str "/" ++ mes ++ str "/" ++ ano))
  /\ (forall s, d = JString s -> count_char hyphen s <> 2%nat ->
                formatarData d = d).
Proof.
  assert (Hiso : forall ano mes dia,
    hyphen ∉ ano -> hyphen ∉ mes -> hyphen ∉ dia ->
    split_char hyphen (ano ++ hyphen :: mes ++ hyphen :: dia) = [ano; mes; dia]).
  { intros ano mes dia Ha Hm Hd.
    rewrite split_char_break by exact Ha.
    rewrite split_char_break by exact Hm.
    by rewrite split_char_no_sep by exact Hd. }
  assert (Hother : forall s, count_char hyphen s <> 2%nat ->
                             formatarData (JString s) = JString s).
  { intros s Hs. unfold formatarData.
    destruct s as [|c s]; [reflexivity|]. cbn [truthy length Nat.eqb negb].
    pose proof (split_char_length hyphen (c :: s)) as Hlen.
    destruct (split_char hyphen (c :: s)) as [|p1 [|p2 [|p3 [|p4 ps]]]];
      try reflexivity.
    cbn [length] in Hlen. lia. }
  split; [|split].
  - destruct (truthy d) eqn:Hd.
    2:{ assert (H : formatarData d = JString [])
          by (unfold formatarData; by rewrite Hd).
        by rewrite H. }
    destruct d as [|b|n|s|items|props];
      try discriminate Hd;
      try (match goal with
           | |- formatarData (formatarData ?v) = _ =>
               assert (H : formatarData v = v)
                 by (unfold formatarData; by rewrite Hd);
               by rewrite !H
           end).
    pose proof (split_char_pieces hyphen s) as Hpieces.
    destruct (split_char hyphen s) as [|ano [|mes [|dia [|p4 ps]]]] eqn:Hs;
      try (assert (H : formatarData (JString s) = JString s)
             by (unfold formatarData; by rewrite Hd, Hs);
           by rewrite !H).
    assert (H : formatarData (JString s)
                = JString (dia ++ str "/" ++ mes ++ str "/" ++ ano))
      by (unfold formatarData; by rewrite Hd, Hs).
    rewrite H. apply Hother. unfold count_char.
    assert (Hnone : List.filter (N.eqb hyphen)
                      (dia ++ str "/" ++ mes ++ str "/" ++ ano) = []).
    { rewrite !List.filter_app.
      assert (Hp : forall piece, piece ∈ [ano; mes; dia] ->
                     List.filter (N.eqb hyphen) piece = []).
      { intros piece Hin. by apply filter_eqb_absent, Hpieces. }
      rewrite (Hp dia), (Hp mes), (Hp ano) by set_solver.
      reflexivity. }
    by rewrite Hnone.
  - intros ano mes dia -> Ha Hm Hd.
    by apply formatarData_three, Hiso.
  - intros s -> Hs. by apply Hother.
Qed.

(** ** buscarAba *)

Local Abbreviation configurada := (url_configurada cfg).

(** X20: [buscarAba] issues no request at all while the address is
    empty or still the placeholder of the source, and exactly one
    otherwise, without delay.  It resolves exactly when the address is
    configured, the reply has a success status and its body is an object
    with a truthy [sucesso] and a [dados] that is neither missing nor
    null and whose length can be written into the log line; the value is
    that [dados]. *)
Theorem buscarAba_result (nomeAba : jsstring) (w : world) :
  (~ configurada -> buscarAba cfg env nomeAba w = (Rejeitado NaoConfigurada, w))
  /\ (configurada ->
      (buscarAba cfg env nomeAba w).2 = (http_get env (aba_url cfg nomeAba) w).2)
  /\ (forall dados w',
        buscarAba cfg env nomeAba w = (Resolvido dados, w')
        <-> configurada
            /\ w' = (http_get env (aba_url cfg nomeAba) w).2
            /\ dados <> JNull
            /\ length_text_throws dados = false
            /\ exists resposta json s,
                net env (requests w) = Replied resposta
                /\ ok resposta = true
                /\ body_json resposta = Some json
                /\ get_prop (str "sucesso") json = Some s
                /\ truthy s = true
                /\ get_prop (str "dados") json = Some dados).
Proof.
  unfold url_configurada, buscarAba, key_eqb.
  destruct (APPS_SCRIPT_URL cfg) as [|c u] eqn:Hurl.
  { cbn. split; [done|]. split; [intros [H _]; done|].
    intros dados w'. split; [discriminate | intros [[H _] _]; done]. }
  cbn [length Nat.eqb orb].
  destruct (decide (c :: u = placeholder_url)) as [Hp|Hp].
  { rewrite bool_decide_eq_true_2 by exact Hp. split; [done|].
    split; [intros [_ H]; done|].
    intros dados w'. split; [discriminate | intros [[_ H] _]; done]. }
  rewrite bool_decide_eq_false_2 by exact Hp.
  assert (Hconf : c :: u <> [] /\ c :: u <> placeholder_url) by done.
  split; [intros H; by destruct H|].
  cbn [http_get].
  set (w1 := World (localStorage w) (ticks w) (S (requests w))
                   (trace w ++ [EvRequest (aba_url cfg nomeAba)])).
  (* every path ends in the world [w1]; a rejection is not a resolution
     as soon as the conditions of a resolution fail on the reply *)
  assert (Hrej : forall (res : resultado * world) e,
    res = (Rejeitado e, w1) ->
    (forall resposta json s dados,
        net env (requests w) = Replied resposta -> ok resposta = true ->
        body_json resposta = Some json ->
        get_prop (str "sucesso") json = Some s -> truthy s = true ->
        get_prop (str "dados") json = Some dados ->
        dados <> JNull -> length_text_throws dados = false -> False) ->
    (c :: u <> [] /\ c :: u <> placeholder_url -> res.2 = w1)
    /\ forall dados w',
        res = (Resolvido dados, w')
        <-> (c :: u <> [] /\ c :: u <> placeholder_url)
            /\ w' = w1 /\ dados <> JNull
            /\ length_text_throws dados = false
            /\ exists resposta json s,
                net env (requests w) = Replied resposta
                /\ ok resposta = true
                /\ body_json resposta = Some json
                /\ get_prop (str "sucesso") json = Some s
                /\ truthy s = true
                /\ get_prop (str "dados") json = Some dados).
  { intros res e -> Hno. split; [intros _; reflexivity|].
    intros dados w'. split; [discriminate|].
    intros (_ & _ & Hnn & Hlen & r & j & s & Hnet & Hok & Hb & Hs & Hts & Hd).
    exfalso. exact (Hno r j s dados Hnet Hok Hb Hs Hts Hd Hnn Hlen). }
  destruct (net env (requests w)) as [reason|resposta] eqn:Hnet.
  { eapply Hrej; [reflexivity|]. intros; discriminate. }
  destruct (ok resposta) eqn:Hok; cbn [negb].
  2:{ eapply Hrej; [reflexivity|].
      intros r j s d [= <-] Hok'. congruence. }
  destruct (body_json resposta) as [json|] eqn:Hbody.
  2:{ eapply Hrej; [reflexivity|].
      intros r j s d [= <-] _ Hb. congruence. }
  assert (Hjson : forall r j, Replied resposta = Replied r ->
                              body_json r = Some j -> j = json).
  { intros r j [= <-] Hb. congruence. }
  destruct json as [|b|n|s|items|props];
    try (eapply Hrej; [reflexivity|];
         intros r j s0 d Hr _ Hb Hs; rewrite (Hjson r j Hr Hb) in Hs;
         discriminate Hs).
  cbn [get_prop].
  destruct (lookup_prop (str "sucesso") props) as [s|] eqn:Hs.
  2:{ destruct (lookup_prop (str "erro") props) as [e|];
        [destruct (truthy e); [destruct (to_string_throws e)|]|];
        (eapply Hrej; [reflexivity|];
         intros r j s0 d Hr _ Hb Hs0; rewrite (Hjson r j Hr Hb) in Hs0;
         cbn in Hs0; congruence). }
  destruct (truthy s) eqn:Hts.
  2:{ destruct (lookup_prop (str "erro") props) as [e|];
        [destruct (truthy e); [destruct (to_string_throws e)|]|];
        (eapply Hrej; [reflexivity|];
         intros r j s0 d Hr _ Hb Hs0 Hts0; rewrite (Hjson r j Hr Hb) in Hs0;
         cbn in Hs0; congruence). }
  destruct (lookup_prop (str "dados") props) as [dados0|] eqn:Hd.
  2:{ eapply Hrej; [reflexivity|].
      intros r j s0 d Hr _ Hb _ _ Hd0. rewrite (Hjson r j Hr Hb) in Hd0.
      cbn in Hd0. congruence. }
  assert (Hsame : forall r j d, Replied resposta = Replied r ->
                    body_json r = Some j ->
                    get_prop (str "dados") j = Some d -> d = dados0).
  { intros r j d Hr Hb Hd0. rewrite (Hjson r j Hr Hb) in Hd0.
    cbn in Hd0. congruence. }
  assert (Hnull : dados0 = JNull \/ dados0 <> JNull)
    by (destruct dados0; (by left) || (by right)).
  destruct Hnull as [->|Hnn].
  { eapply Hrej; [reflexivity|].
    intros r j s0 d Hr _ Hb _ _ Hd0 Hnn _. apply Hnn. by apply (Hsame r j). }
  destruct (length_text_throws dados0) eqn:Hlen.
  { eapply (Hrej _ ErroDeTipo); [by destruct dados0|].
    intros r j s0 d Hr _ Hb _ _ Hd0 _ Hlen0.
    rewrite (Hsame r j d Hr Hb Hd0) in Hlen0. congruence. }
  assert (Hres : match dados0 with
                 | JNull => (Rejeitado ErroDeTipo, w1)
                 | _ => (Resolvido dados0, w1)
                 end = (Resolvido dados0, w1))
    by (by destruct dados0).
  rewrite Hres. split; [intros _; reflexivity|].
  intros dados w'. split.
  - intros [= <- <-]. split; [exact Hconf|]. split; [reflexivity|].
    split; [exact Hnn|]. split; [exact Hlen|].
    exists resposta, (JObject props), s. done.
  - intros (_ & -> & _ & _ & r & j & s' & Hr & _ & Hb & _ & _ & Hd').
    by rewrite (Hsame r j dados Hr Hb Hd').
Qed.

(** A [dados] whose [length] is an object with a property [toString]
    cannot be written into the log line: the call rejects. *)
Example buscarAba_unprintable_length :
  (buscarAba (Config (str "https://example.org/exec") (str "ceni_x") 1)
     (env_clock 0
        (JObject [(str "sucesso", JBool true);
                  (str "dados",
                   JObject [(str "length",
                             JObject [(str "toString", JNull)])])]))
     (str "repositorio") world0).1
  = Rejeitado ErroDeTipo.
Proof. vm_compute. reflexivity. Qed.

End AppsScriptFacts.

(** * Grouping the documents by category *)

Section Groups.

Lemma group_get_None_iff name (g : groups) :
  group_get name g = None <-> name ∉ g.*1.
Proof.
  induction g as [|[k docs] g IH]; cbn.
  - split; [intros _; apply not_elem_of_nil | reflexivity].
  - unfold key_eqb at 1. rewrite not_elem_of_cons.
    destruct (decide (k = name)) as [->|Hk].
    + rewrite bool_decide_eq_true_2 by reflexivity.
      split; [discriminate | intros [H _]; congruence].
    + rewrite bool_decide_eq_false_2 by exact Hk. rewrite IH.
      split; [intros H; split; [congruence | exact H] | intros [_ H]; exact H].
Qed.

Lemma keys_group_push name doc (g : groups) :
  (group_push name doc g).*1 = g.*1.
Proof.
  induction g as [|[k docs] g IH]; [reflexivity|]. cbn.
  destruct (key_eqb k name); cbn; [reflexivity | by rewrite IH].
Qed.

Lemma group_get_push name c doc (g : groups) :
  group_get c (group_push name doc g)
  = if decide (c = name) then (fun docs => docs ++ [doc]) <$> group_get c g
    else group_get c g.
Proof.
  induction g as [|[k docs] g IH].
  - cbn. by destruct (decide _).
  - cbn [group_push]. unfold key_eqb at 1.
    destruct (decide (k = name)) as [->|Hk].
    + rewrite bool_decide_eq_true_2 by reflexivity. cbn [group_get].
      unfold key_eqb. destruct (decide (c = name)) as [->|Hc].
      * by rewrite !bool_decide_eq_true_2.
      * by rewrite !bool_decide_eq_false_2 by congruence.
    + rewrite bool_decide_eq_false_2 by exact Hk. cbn [group_get].
      unfold key_eqb. rewrite IH.
      destruct (decide (c = name)) as [->|Hc]; [|reflexivity].
      by rewrite bool_decide_eq_false_2 by exact Hk.
Qed.

Lemma group_get_head name c docs (g : groups) :
  group_get c ((name, docs) :: g)
  = if decide (c = name) then Some docs else group_get c g.
Proof.
  cbn. unfold key_eqb. destruct (decide (c = name)) as [->|Hc].
  - by rewrite bool_decide_eq_true_2.
  - by rewrite bool_decide_eq_false_2 by congruence.
Qed.

Lemma group_create_spec name (g : groups) :
  name ∉ g.*1 ->
  (group_create name g).*1 ≡ₚ name :: g.*1
  /\ forall c, group_get c (group_create name g)
               = if decide (c = name) then Some [] else group_get c g.
Proof.
  intros Hfresh. unfold group_create.
  destruct (array_index name) as [n|].
  - induction g as [|[k docs] g IH].
    + split; [reflexivity | intros c; apply group_get_head].
    + cbn in Hfresh. apply not_elem_of_cons in Hfresh as [Hk Hfresh].
      cbn [group_insert_index].
      destruct (array_index k) as [m|];
        [|split; [reflexivity | intros c; apply group_get_head]].
      destruct (m <? n)%N;
        [|split; [reflexivity | intros c; apply group_get_head]].
      destruct (IH Hfresh) as [Hperm Hget]. split.
      * cbn. rewrite Hperm. apply Permutation_swap.
      * intros c. rewrite !group_get_head, Hget.
        destruct (decide (c = k)) as [->|Hc]; [|reflexivity].
        by rewrite decide_False by congruence.
  - split.
    + rewrite fmap_app. cbn. by rewrite Permutation_app_comm.
    + intros c. induction g as [|[k docs] g IH]; [apply group_get_head|].
      cbn in Hfresh. apply not_elem_of_cons in Hfresh as [Hk Hfresh].
      cbn [app]. rewrite !group_get_head, (IH Hfresh).
      destruct (decide (c = k)) as [->|Hc]; [|reflexivity].
      by rewrite decide_False by congruence.
Qed.

Lemma docs_of_snoc c documentos doc :
  docs_of c (documentos ++ [doc])
  = docs_of c documentos
    ++ (if decide (categoria_of doc = c) then [doc] else []).
Proof.
  unfold docs_of. rewrite List.filter_app. cbn. unfold key_eqb.
  destruct (decide (categoria_of doc = c)) as [Hc|Hc].
  - by rewrite bool_decide_eq_true_2.
  - by rewrite bool_decide_eq_false_2.
Qed.

Lemma group_step_grouped documentos g doc :
  grouped documentos g ->
  match group_step g doc with
  | Some g' =>
      inherited (categoria_of doc) = false /\ grouped (documentos ++ [doc]) g'
  | None => inherited (categoria_of doc) = true
  end.
Proof.
  intros (Hnd & Hown & Hget). unfold group_step.
  set (c0 := categoria_of doc).
  destruct (group_get c0 g) as [ds|] eqn:Hc0.
  - assert (Hin : c0 ∈ g.*1).
    { destruct (decide (c0 ∈ g.*1)) as [H|H]; [exact H|].
      apply group_get_None_iff in H. congruence. }
    split; [by apply (proj1 (Forall_forall _ _) Hown)|].
    split; [by rewrite keys_group_push|].
    split; [by rewrite keys_group_push|].
    intros c. rewrite group_get_push, docs_of_snoc, Hget. fold c0.
    destruct (decide (c = c0)) as [->|Hc].
    + rewrite decide_True by reflexivity.
      rewrite Hget in Hc0.
      destruct (docs_of c0 documentos) as [|d ds']; [discriminate|].
      reflexivity.
    + rewrite decide_False by congruence. by rewrite app_nil_r.
  - destruct (inherited c0) eqn:Hinh; [reflexivity|].
    split; [reflexivity|].
    apply group_get_None_iff in Hc0 as Hfresh.
    destruct (group_create_spec c0 g Hfresh) as [Hperm Hcreate].
    split; [|split].
    + rewrite keys_group_push, Hperm. by apply NoDup_cons.
    + rewrite keys_group_push, Hperm. by apply Forall_cons.
    + intros c. rewrite group_get_push, Hcreate, docs_of_snoc, Hget. fold c0.
      destruct (decide (c = c0)) as [->|Hc].
      * rewrite decide_True by reflexivity.
        rewrite Hget in Hc0.
        destruct (docs_of c0 documentos) as [|d ds']; [|discriminate].
        reflexivity.
      * rewrite decide_False by congruence. by rewrite app_nil_r.
Qed.

Lemma groupByCategory_from_grouped rest : forall done g,
  grouped done g ->
  match groupByCategory_from g rest with
  | Some g' =>
      Forall (fun doc => inherited (categoria_of doc) = false) rest
      /\ grouped (done ++ rest) g'
  | None => Exists (fun doc => inherited (categoria_of doc) = true) rest
  end.
Proof.
  induction rest as [|doc rest IH]; intros done g Hg; cbn.
  - split; [constructor | by rewrite app_nil_r].
  - pose proof (group_step_grouped done g doc Hg) as Hstep.
    destruct (group_step g doc) as [g1|]; [|by left].
    destruct Hstep as [Hdoc Hg1].
    specialize (IH (done ++ [doc]) g1 Hg1).
    destruct (groupByCategory_from g1 rest) as [g'|].
    + destruct IH as [Hrest Hg']. split; [by constructor|].
      by rewrite <- app_assoc in Hg'.
    + by right.
Qed.

(** X22: [groupByCategory] puts every document under its category, the
    text of its column Categoria or Outros when that is empty or
    missing: the keys of the result are distinct, and under each key
    stand exactly the documents of that category, in their order; a
    category without documents has no key.  The call raises a TypeError
    exactly when some category is the name of a property inherited from
    [Object.prototype], such as constructor or toString. *)
Theorem groupByCategory_partition (documentos : list object) :
  match groupByCategory documentos with
  | Some g =>
      Forall (fun doc => inherited (categoria_of doc) = false) documentos
      /\ NoDup g.*1
      /\ forall c, group_get c g
                   = match docs_of c documentos with
                     | [] => None
                     | doc :: docs => Some (doc :: docs)
                     end
  | None =>
      Exists (fun doc => inherited (categoria_of doc) = true) documentos
  end.
Proof.
  unfold groupByCategory.
  assert (H0 : grouped [] []).
  { split; [constructor|]. split; [constructor | reflexivity]. }
  pose proof (groupByCategory_from_grouped documentos [] [] H0) as H.
  destruct (groupByCategory_from [] documentos) as [g|]; [|exact H].
  destruct H as (Hall & Hnd & _ & Hget). done.
Qed.

End Groups.

(** * The further properties on sample runs *)

Section MoreSamples.

Local Abbreviation eventos := (str "eventos").
Local Abbreviation sample_fetch env :=
  (DynamicData.fetch DynamicData.API_CONFIG env stringify_sample query_sample
                     eventos [] 1).
Local Abbreviation sample_key :=
  (DynamicData.cacheKey stringify_sample eventos []).
Local Abbreviation sample_url :=
  (DynamicData.request_url DynamicData.API_CONFIG query_sample eventos []).

Lemma CacheManager_round_trip_witness :
  (RepositorioDinamico.CacheManager_get RepositorioDinamico.CONFIG
     (env_clock 300000 envelope) (str "0")
     (RepositorioDinamico.CacheManager_set (env_clock 300000 envelope)
        (str "0") envelope world0)).1 = envelope
  /\ (RepositorioDinamico.CacheManager_get RepositorioDinamico.CONFIG
        (env_clock 300001 envelope) (str "0")
        (RepositorioDinamico.CacheManager_set (env_clock 300001 envelope)
           (str "0") envelope world0)).1 = JNull.
Proof.
  split.
  - apply (proj1 (CacheManager_round_trip RepositorioDinamico.CONFIG
                    (env_clock 300000 envelope) (str "0") envelope world0
                    eq_refl eq_refl)).
    compute_done.
  - apply (proj2 (CacheManager_round_trip RepositorioDinamico.CONFIG
                    (env_clock 300001 envelope) (str "0") envelope world0
                    eq_refl eq_refl)).
    compute_done.
Defined.

Lemma LocalCache_last_write_wins_witness :
  (DynamicData.LocalCache_get DynamicData.API_CONFIG (env_clock 5 envelope)
     sample_key
     (DynamicData.LocalCache_set (env_clock 5 envelope) sample_key envelope
        (DynamicData.LocalCache_set (env_clock 5 envelope) sample_key
           error_envelope world0))).1 = envelope
  /\ localStorage
       (DynamicData.LocalCache_set (env_clock 5 envelope) sample_key envelope
          (DynamicData.LocalCache_set (env_clock 5 envelope) sample_key
             error_envelope world0))
     !! (prefix ++ sample_key)
     = Some (CacheItem (dates (env_clock 5 envelope) 1) envelope).
Proof.
  apply (LocalCache_last_write_wins DynamicData.API_CONFIG
           (env_clock 5 envelope) sample_key error_envelope envelope world0
           eq_refl eq_refl).
  compute_done.
Defined.

Lemma LocalCache_set_other_key_witness :
  localStorage (DynamicData.LocalCache_set (env_clock 5 envelope) (str "a")
                  envelope world0) !! (prefix ++ str "b")
  = localStorage world0 !! (prefix ++ str "b")
  /\ (DynamicData.LocalCache_get DynamicData.API_CONFIG (env_clock 5 envelope)
        (str "b")
        (DynamicData.LocalCache_set (env_clock 5 envelope) (str "a")
           envelope world0)).1
     = (DynamicData.LocalCache_get DynamicData.API_CONFIG
          (env_clock 5 envelope) (str "b")
          (Date_now (env_clock 5 envelope) world0).2).1
  /\ (RepositorioDinamico.CacheManager_get RepositorioDinamico.CONFIG
        (env_clock 5 envelope) (str "b")
        (DynamicData.LocalCache_set (env_clock 5 envelope) (str "a")
           envelope world0)).1
     = (RepositorioDinamico.CacheManager_get RepositorioDinamico.CONFIG
          (env_clock 5 envelope) (str "b")
          (Date_now (env_clock 5 envelope) world0).2).1.
Proof.
  apply (LocalCache_set_other_key DynamicData.API_CONFIG
           RepositorioDinamico.CONFIG (env_clock 5 envelope)
           (str "a") (str "b") envelope world0).
  discriminate.
Defined.

Lemma clear_removes_all_entries_witness :
  CacheManager_clear (env_clock 5 envelope)
    (world_with (str "eventos") (CacheItem 1000 envelope))
  = LocalCache_clear (env_clock 5 envelope)
      (world_with (str "eventos") (CacheItem 1000 envelope))
  /\ (forall k,
        localStorage
          (LocalCache_clear (env_clock 5 envelope)
             (world_with (str "eventos") (CacheItem 1000 envelope))) !! k
        = if startsWith prefix k then None
          else localStorage
                 (world_with (str "eventos") (CacheItem 1000 envelope)) !! k)
  /\ (forall key,
        DynamicData.LocalCache_get DynamicData.API_CONFIG
          (env_clock 5 envelope) key
          (LocalCache_clear (env_clock 5 envelope)
             (world_with (str "eventos") (CacheItem 1000 envelope)))
        = (JNull,
           LocalCache_clear (env_clock 5 envelope)
             (world_with (str "eventos") (CacheItem 1000 envelope)))
        /\ RepositorioDinamico.CacheManager_get RepositorioDinamico.CONFIG
             (env_clock 5 envelope) key
             (LocalCache_clear (env_clock 5 envelope)
                (world_with (str "eventos") (CacheItem 1000 envelope)))
           = (JNull,
              LocalCache_clear (env_clock 5 envelope)
                (world_with (str "eventos") (CacheItem 1000 envelope)))).
Proof.
  apply (clear_removes_all_entries DynamicData.API_CONFIG
           RepositorioDinamico.CONFIG (env_clock 5 envelope)
           (world_with (str "eventos") (CacheItem 1000 envelope))).
  reflexivity.
Defined.

Lemma fetch_request_and_delay_bounds_witness :
  exists out w',
    sample_fetch env_down world0 = Some (out, w')
    /\ (count_requests (drop (length (trace world0)) (trace w'))
        <= Z.to_nat (Z.max 1 3))%nat
    /\ 0 <= total_delay (drop (length (trace world0)) (trace w'))
       <= 1000 * (2 ^ (Z.max 1 3 - 1) - 1).
Proof.
  apply (fetch_request_and_delay_bounds DynamicData.API_CONFIG env_down
           stringify_sample query_sample eventos [] world0).
  compute_done.
Defined.

Lemma fetch_touches_only_its_key_witness :
  (forall k', k' <> prefix ++ sample_key ->
     localStorage
       (World ∅ 0 3 [EvRequest sample_url; EvDelay 1000; EvRequest sample_url;
                     EvDelay 2000; EvRequest sample_url]) !! k'
     = localStorage world0 !! k')
  /\ (forall e, Rejected (HttpError 503 (str "")) = Rejected e ->
        localStorage
          (World ∅ 0 3 [EvRequest sample_url; EvDelay 1000;
                        EvRequest sample_url; EvDelay 2000;
                        EvRequest sample_url]) !! (prefix ++ sample_key)
        = None
        \/ localStorage
             (World ∅ 0 3 [EvRequest sample_url; EvDelay 1000;
                           EvRequest sample_url; EvDelay 2000;
                           EvRequest sample_url]) !! (prefix ++ sample_key)
           = localStorage world0 !! (prefix ++ sample_key)).
Proof.
  apply (fetch_touches_only_its_key DynamicData.API_CONFIG env_down
           stringify_sample query_sample eventos [] world0).
  vm_compute. reflexivity.
Defined.

Lemma fetch_without_storage_witness :
  exists out w' rest,
    sample_fetch env_no_storage world0 = Some (out, w')
    /\ trace w' = trace world0 ++ EvRequest sample_url :: rest
    /\ localStorage w' = localStorage world0.
Proof.
  apply (fetch_without_storage DynamicData.API_CONFIG env_no_storage
           stringify_sample query_sample eventos [] world0).
  reflexivity.
Defined.

Lemma fetch_then_cached_witness :
  exists w1,
    sample_fetch (env_clock 5 envelope) world0 = Some (Resolved envelope, w1)
    /\ trace w1 = trace world0 ++ [EvRequest sample_url]
    /\ localStorage w1 !! (prefix ++ sample_key)
       = Some (CacheItem 1000 envelope)
    /\ exists w2,
        sample_fetch (env_clock 5 envelope) w1 = Some (Resolved envelope, w2)
        /\ trace w2 = trace w1 /\ requests w2 = requests w1.
Proof.
  destruct (fetch_then_cached DynamicData.API_CONFIG (env_clock 5 envelope)
              stringify_sample query_sample eventos [] world0 envelope
              eq_refl eq_refl eq_refl eq_refl)
    as (w1 & Hrun & Htr & Hitem & Hnext).
  exists w1. split; [exact Hrun|]. split; [exact Htr|]. split; [exact Hitem|].
  apply Hnext; [reflexivity|].
  apply (f_equal (fun o => snd <$> o)) in Hrun. vm_compute in Hrun.
  injection Hrun as <-. compute_done.
Defined.

Lemma fetchSheet_then_cached_witness :
  RepositorioDinamico.fetchSheet RepositorioDinamico.CONFIG
    (env_csv 300000 csv_sample) (str "0")
    (RepositorioDinamico.fetchSheet RepositorioDinamico.CONFIG
       (env_csv 300000 csv_sample) (str "0") world0).2
  = (Resolved (records_json (RepositorioDinamico.parseCSV csv_sample)),
     (Date_now (env_csv 300000 csv_sample)
        (RepositorioDinamico.fetchSheet RepositorioDinamico.CONFIG
           (env_csv 300000 csv_sample) (str "0") world0).2).2).
Proof.
  apply (proj1 (fetchSheet_then_cached RepositorioDinamico.CONFIG
                  (env_csv 300000 csv_sample) (str "0") world0
                  (Response 200 (str "OK") (Some csv_sample) None) csv_sample
                  eq_refl eq_refl eq_refl eq_refl eq_refl eq_refl)).
  - vm_compute. discriminate.
  - compute_done.
Defined.

Lemma formatarData_spec_witness :
  AppsScript.formatarData
    (JString (str "2025" ++ 45%N :: str "12" ++ 45%N :: str "31"))
  = JString (str "31" ++ str "/" ++ str "12" ++ str "/" ++ str "2025").
Proof.
  apply (proj1 (proj2 (formatarData_spec
                         (JString (str "2025" ++ 45%N :: str "12" ++ 45%N
                                       :: str "31"))))
           (str "2025") (str "12") (str "31"));
    [reflexivity | compute_done | compute_done | compute_done].
Defined.

Lemma fetch_resolved_value_witness :
  envelope <> JNull
  /\ (forall e, get_prop (str "error") envelope = Some e -> truthy e = false)
  /\ exists k resp,
      (requests world0 + k < 3)%nat
      /\ net env_flaky (requests world0 + k) = Replied resp
      /\ ok resp = true /\ body_json resp = Some envelope.
Proof.
  apply (fetch_resolved_value DynamicData.API_CONFIG env_flaky
           stringify_sample query_sample eventos [] world0 envelope
           (World {[ prefix ++ sample_key := CacheItem 1000 envelope ]} 1 3
                  [EvRequest sample_url; EvDelay 1000; EvRequest sample_url;
                   EvDelay 2000; EvRequest sample_url])).
  - vm_compute. reflexivity.
  - reflexivity.
Defined.


End MoreSamples.
